(** * SS13-tools: the log downloader pipeline

    A shallow embedding of [ss13_tools/log_downloader/abstract.py]
    (class [LogDownloader]): the link resolver [get_log_links], the
    per-round [fetch] closure, the coordinator [get_logs_async], the line
    tagger [format_line_bytes] and the driver [process_and_write].

    Python values are modelled as follows.
    - [str] and [bytes] are both [string] (a list of 8-bit characters); a
      [str] is held as its UTF-8 encoding, so [.encode("utf-8")] is the
      identity.  [lower] is [str.lower] on ASCII text ([is_ascii]): what
      is said of the exact value of a lower-cased name is said of ASCII
      names.
    - [int] is [Z].
    - A [RoundData] object lives in a heap indexed by object identity
      ([nat]); lists of rounds are lists of identities, so that the
      in-place assignment [round_data.timestamp = ...] is seen through every
      alias.
    - The attribute [timestamp] is dynamically typed: it holds text until
      [fetch] overwrites it with the parsed instant.
    - Raised exceptions are values of [exn]; a computation that can raise
      returns a sum.
    - The asyncio event loop is a schedule: the list of task indexes in the
      order in which the loop resumes them. *)

From Stdlib Require Import ZArith String Ascii List DecimalString Lia.
From stdpp Require Import base tactics option list strings.
Import ListNotations.

Local Open Scope string_scope.
Local Open Scope Z_scope.

(** ** Python built-ins used by the module *)

Module Py.

Definition bytes := string.

Definition CR : ascii := Ascii.ascii_of_nat 13.
Definition LF : ascii := Ascii.ascii_of_nat 10.
Definition ESC : ascii := Ascii.ascii_of_nat 27.
Definition CRLF : bytes := String CR (String LF EmptyString).
Definition NL : bytes := String LF EmptyString.

(** [str(n)] and the format spec [{n}] for an [int]. *)
Definition str (n : Z) : string := NilZero.string_of_int (Z.to_int n).

(** The format spec [{n:02d}]: decimal, zero-padded to width two. *)
Definition fmt_02d (n : Z) : string :=
  if (0 <=? n) && (n <? 10) then "0" +:+ str n else str n.



(** [s.lower()] on ASCII text: the letters A to Z are folded.  On text with
    other characters [str.lower] follows the Unicode case mapping, which is
    not modelled; such text is left to the hypothesis [is_ascii]. *)
Definition lower_char (c : ascii) : ascii :=
  let n := Ascii.nat_of_ascii c in
  if (65 <=? n)%nat && (n <=? 90)%nat then Ascii.ascii_of_nat (n + 32) else c.

Fixpoint lower (s : string) : string :=
  match s with
  | EmptyString => EmptyString
  | String c s' => String (lower_char c) (lower s')
  end.

(** [s.replace(old, new)] for a non-empty [old]: occurrences are found
    left to right and do not overlap.  [skip] counts the characters of a
    matched occurrence that are still to be dropped. *)
Fixpoint replace_from (old new : string) (skip : nat) (s : string) : string :=
  match s with
  | EmptyString => EmptyString
  | String c s' =>
      match skip with
      | S k => replace_from old new k s'
      | O =>
          if String.prefix old s
          then new +:+ replace_from old new (String.length old - 1) s'
          else String c (replace_from old new 0 s')
      end
  end.

Definition replace (old new s : string) : string := replace_from old new 0 s.

(** [sep.join(parts)]. *)
Definition join (sep : bytes) (parts : list bytes) : bytes :=
  String.concat sep parts.

(** [b.split(b"\r\n")]: the pieces between the non-overlapping
    occurrences of CR LF, found left to right.  The head of the result is
    the piece being read. *)
Fixpoint split_crlf (b : bytes) : list bytes :=
  match b with
  | EmptyString => [EmptyString]
  | String c b' =>
      match b' with
      | String d b'' =>
          if Ascii.eqb c CR && Ascii.eqb d LF
          then EmptyString :: split_crlf b''
          else match split_crlf b' with
               | piece :: rest => String c piece :: rest
               | [] => [String c EmptyString]
               end
      | EmptyString => [String c EmptyString]
      end
  end.

(** Truthiness of [str]/[bytes]: non-empty. *)
Definition truthy (s : string) : bool :=
  match s with EmptyString => false | String _ _ => true end.

Inductive exn : Type :=
| ValueError       (* isoparse: text that is no ISO-8601 instant *)
| TypeError        (* isoparse on a non-string; unpacking None; iterating None *)
| AttributeError   (* [.year] on a str *)
| ClientError      (* aiohttp: connection failure or timeout *)
| OSError.         (* open: the path cannot be opened for writing *)

End Py.

Import Py.

(** ** Data model *)

(** A [datetime], as far as the module reads it. *)
Record datetime : Type := { year : Z; month : Z; day : Z }.

(** The attribute [RoundData.timestamp]: ISO text as delivered by the round
    listing, or the instant that [fetch] stores over it. *)
Inductive Timestamp : Type :=
| TsText (s : string)
| TsInstant (d : datetime).

(** The attributes of [scrubby.RoundData] that the downloader touches. *)
Record RoundData : Type := {
  server : string;
  roundID : Z;
  timestamp : Timestamp;
  roundStartSuicide : bool
}.

(** [round_data.timestamp = t] *)
Definition set_timestamp (rd : RoundData) (t : Timestamp) : RoundData :=
  {| server := server rd; roundID := roundID rd; timestamp := t;
     roundStartSuicide := roundStartSuicide rd |}.

(** The heap of [RoundData] objects, by object identity. *)
Definition Heap : Type := nat -> RoundData.

Definition heap_set (h : Heap) (a : nat) (v : RoundData) : Heap :=
  fun b => if Nat.eqb b a then v else h b.

(** The keyword arguments of [url.format(...)] in [get_log_links]. *)
Record LinkArgs : Type := {
  arg_server : string;
  arg_year : string;
  arg_month : string;
  arg_day : string;
  arg_round_id : Z
}.

(** What [session.get(link)] gives: a response with its [ok] flag and body,
    or an exception of the HTTP client. *)
Inductive Reply : Type :=
| Status (ok : bool) (body : bytes)
| ConnectionFailed.

(** The instance attributes of [LogDownloader]. *)
Record LogDownloader : Type := {
  tgforums_cookie : string;
  user_agent : string;
  output_path : string;
  rounds : list nat
}.

Definition set_rounds (self : LogDownloader) (rs : list nat) : LogDownloader :=
  {| tgforums_cookie := tgforums_cookie self; user_agent := user_agent self;
     output_path := output_path self; rounds := rs |}.

(** The result of a [fetch] coroutine. *)
Inductive Result : Type :=
| Returned (rd : nat) (response : bytes)   (* return round_data, b'\r\n'.join(responses) *)
| ReturnedNone                             (* the loop ran out of links: implicit return None *)
| Raised (e : exn).

(** A [fetch] task between two resumptions.  [Awaiting rd responses pos link]
    is the coroutine frame suspended in [session.get(link)]: its round, its
    list [responses], and the number [pos] of links already taken from its
    [get_log_links()] generator. *)
Inductive Task : Type :=
| Created (rd : nat)
| Awaiting (rd : nat) (responses : list bytes) (pos : nat) (link : string)
| Finished (r : Result).

(** The event loop: the heap, the tasks in creation order, and the
    requests sent so far (task index, URL). *)
Record Loop : Type := {
  heap : Heap;
  tasks : list Task;
  sent : list (nat * string)
}.

(** How the generator [get_logs_async] ends. *)
Inductive Ending : Type :=
| Completed
| Failed (e : exn)
| Blocked.          (* awaiting a task that never finishes *)

(** One yielded tuple [(round_data, logs)]; [None] is Python's [None]. *)
Definition Outcome : Type := (nat * option (list bytes))%type.

Record Yielded : Type := {
  heap_after : Heap;
  outcomes : list Outcome;
  ending : Ending;
  requests : list (nat * string)
}.

(** The output file and the lines printed on the status channel. *)
Record Sink : Type := {
  file : bytes;
  printed : list string
}.

Record Run : Type := {
  run_heap : Heap;
  run_self : LogDownloader;
  run_path : string;
  run_sink : Sink;
  run_ending : Ending
}.

(** colorama's [Fore] constants. *)
Definition Fore_YELLOW : string := String ESC "[33m".
Definition Fore_MAGENTA : string := String ESC "[35m".
Definition Fore_RESET : string := String ESC "[39m".

(** What the module takes from outside. *)
Class Environment : Type := {
  (** [dateutil.parser.isoparse] on text; [None] stands for its
      [ValueError]. *)
  isoparse_text : string -> option datetime;
  (** The URL templates of [log_downloader/constants.py], applied to their
      keyword arguments with [str.format]. *)
  GAME_TXT_URL : LinkArgs -> string;
  GAME_TXT_ADMIN_URL : LinkArgs -> string;
  (** The remote archive: the reply to a GET of each URL. *)
  web : string -> Reply;
  (** The file system: whether [open(path, 'wb')] opens the file; it raises
      [OSError] when it does not (missing directory, no permission, a path
      that names a directory, the empty path). *)
  open_wb : string -> bool
}.

(** The abstract methods of [LogDownloader], as a subclass provides them.
    [update_round_list] is given by what it does to the heap and the value
    it returns ([None] for Python's [None]). *)
Class Subclass : Type := {
  filter_lines : list bytes -> list bytes;
  update_round_list : Heap -> Heap * option (list nat)
}.

(** ** The downloader *)

Section Downloader.

Context {env : Environment} {sub : Subclass}.

(** [isoparse(round_data.timestamp)]: the parser reads text only; handed an
    instant it fails with [TypeError]. *)
Definition isoparse (t : Timestamp) : exn + datetime :=
  match t with
  | TsText s =>
      match isoparse_text s with
      | Some d => inr d
      | None => inl ValueError
      end
  | TsInstant _ => inl TypeError
  end.

(** One iteration of the loop body of [get_log_links]: the URL of [rnd].
    Reading [.year] off a timestamp that is still text raises. *)
Definition log_link (cookie : string) (rnd : RoundData) : exn + string :=
  let url := if truthy cookie then GAME_TXT_ADMIN_URL else GAME_TXT_URL in
  match timestamp rnd with
  | TsText _ => inl AttributeError
  | TsInstant d =>
      inr (url {| arg_server := replace "bagil" "basil" (lower (server rnd));
                  arg_year := str (year d);
                  arg_month := fmt_02d (month d);
                  arg_day := fmt_02d (day d);
                  arg_round_id := roundID rnd |})
  end.

(** The generator [get_log_links()], asked for its element number [pos]
    while the heap is [h]; [None] is the end of the iteration. *)
Definition next_link (self : LogDownloader) (h : Heap) (pos : nat)
  : option (exn + string) :=
  match rounds self !! pos with
  | Some a => Some (log_link (tgforums_cookie self) (h a))
  | None => None
  end.

(** The generator run to its end under one heap: [[l async for l in
    self.get_log_links()]]. *)
Fixpoint links_from (cookie : string) (h : Heap) (rs : list nat)
  : exn + list string :=
  match rs with
  | [] => inr []
  | a :: rs' =>
      match log_link cookie (h a) with
      | inl e => inl e
      | inr l =>
          match links_from cookie h rs' with
          | inl e => inl e
          | inr ls => inr (l :: ls)
          end
      end
  end.

Definition get_log_links (self : LogDownloader) (h : Heap) : exn + list string :=
  links_from (tgforums_cookie self) h (rounds self).

(** [fetch], from the head of its [async for] to the next suspension: take
    the next link and send the request, or leave the loop. *)
Definition next_request (self : LogDownloader) (h : Heap)
  (rd : nat) (responses : list bytes) (pos : nat) : Task * list string :=
  match next_link self h pos with
  | None => (Finished ReturnedNone, [])
  | Some (inl e) => (Finished (Raised e), [])
  | Some (inr link) => (Awaiting rd responses (S pos) link, [link])
  end.

(** One resumption of a [fetch] task: the new heap, the task's next state
    and the requests it sent. *)
Definition step_task (self : LogDownloader) (h : Heap) (t : Task)
  : Heap * Task * list string :=
  match t with
  | Created rd =>
      match isoparse (timestamp (h rd)) with
      | inl e => (h, Finished (Raised e), [])
      | inr d =>
          let h' := heap_set h rd (set_timestamp (h rd) (TsInstant d)) in
          let '(t', req) := next_request self h' rd [] 0 in
          (h', t', req)
      end
  | Awaiting rd responses pos link =>
      match web link with
      | ConnectionFailed => (h, Finished (Raised ClientError), [])
      | Status false _ =>
          let '(t', req) := next_request self h rd responses pos in
          (h, t', req)
      | Status true body =>
          (h, Finished (Returned rd (join CRLF (responses ++ [body]))), [])
      end
  | Finished _ => (h, t, [])
  end.

(** The loop resumes task [i].  Resuming a task that has finished, or an
    index that names no task, changes nothing. *)
Definition resume (self : LogDownloader) (st : Loop) (i : nat) : Loop :=
  match tasks st !! i with
  | None => st
  | Some t =>
      let '(h', t', req) := step_task self (heap st) t in
      {| heap := h';
         tasks := <[i := t']> (tasks st);
         sent := sent st ++ map (pair i) req |}
  end.

(** The loop follows a schedule: the indexes of the tasks in the order in
    which it resumes them.  asyncio starts the tasks in the order of their
    creation and resumes a task when the reply to its request is there; the
    order of the replies is not known.  Every list of indexes is taken as a
    possible schedule. *)
Definition run (self : LogDownloader) (sched : list nat) (st : Loop) : Loop :=
  fold_left (resume self) sched st.

(** Task [i] resumed until it has finished: a task is resumed once to start
    and at most once per link. *)
Definition finish (self : LogDownloader) (st : Loop) (i : nat) : Loop :=
  Nat.iter (S (length (rounds self))) (fun st' => resume self st' i) st.

(** Whatever is still pending after the schedule runs to its end, in task
    order: the coordinator awaits every task, and every request gets its
    reply (a response, or an exception of the client such as a timeout). *)
Definition drain (self : LogDownloader) (st : Loop) : Loop :=
  fold_left (finish self) (seq 0 (length (tasks st))) st.

Definition event_loop (self : LogDownloader) (sched : list nat) (st : Loop) : Loop :=
  drain self (run self sched st).

(** [if not response: yield round_data, None
     else: yield round_data, response.split(b"\r\n")] *)
Definition outcome_of (rd : nat) (response : bytes) : Outcome :=
  (rd, if truthy response then Some (split_crlf response) else None).

(** The loop [for task in tasks: round_data, response = await task; yield ...]
    over the finished tasks.  Unpacking [None] raises [TypeError]; an
    exception of the task is raised again by [await]. *)
Fixpoint collect (ts : list Task) : list Outcome * Ending :=
  match ts with
  | [] => ([], Completed)
  | Finished (Returned rd response) :: ts' =>
      let '(ys, e) := collect ts' in (outcome_of rd response :: ys, e)
  | Finished ReturnedNone :: _ => ([], Failed TypeError)
  | Finished (Raised e) :: _ => ([], Failed e)
  | _ :: _ => ([], Blocked)
  end.

(** [get_logs_async(rounds)], run under the schedule [sched]: one task per
    round, created in order; then the outcomes of the tasks, read in the
    order of creation.  [heap_after] is the heap once every task has come to
    its end. *)
Definition get_logs_async (self : LogDownloader) (sched : list nat)
  (h : Heap) (rs : list nat) : Yielded :=
  let st := event_loop self sched {| heap := h; tasks := map Created rs; sent := [] |} in
  let '(ys, e) := collect (tasks st) in
  {| heap_after := heap st; outcomes := ys; ending := e; requests := sent st |}.

(** [format_line_bytes] *)
Definition format_line_bytes (line : bytes) (round_data : RoundData) : bytes :=
  server round_data +:+ " " +:+ str (roundID round_data) +:+ " | " +:+ line +:+ NL.

(** The two messages printed by [process_and_write]. *)
Definition could_not_find (round_data : RoundData) : string :=
  Fore_YELLOW +:+ "WARNING:" +:+ Fore_RESET +:+ " Could not find round " +:+
  str (roundID round_data) +:+ " on " +:+ server round_data.

Definition round_start_suicide (round_data : RoundData) : string :=
  Fore_MAGENTA +:+ "WARNING:" +:+ Fore_RESET +:+ " round start suicide " +:+
  "in round " +:+ str (roundID round_data) +:+ " on " +:+ server round_data.

Definition print (s : Sink) (msg : string) : Sink :=
  {| file := file s; printed := printed s ++ [msg] |}.

Definition write (s : Sink) (b : bytes) : Sink :=
  {| file := file s +:+ b; printed := printed s |}.

(** The body of [async for round_data, logs in pbar] for one outcome.
    [not logs] holds of [None] and of the empty list. *)
Definition handle (h : Heap) (s : Sink) (y : Outcome) : Sink :=
  let round_data := h (fst y) in
  match snd y with
  | None | Some [] => print s (could_not_find round_data)
  | Some logs =>
      let s1 := if roundStartSuicide round_data
                then print s (round_start_suicide round_data) else s in
      fold_left (fun s' line => write s' (format_line_bytes line round_data))
                (filter_lines logs) s1
  end.

Definition consume (h : Heap) (ys : list Outcome) (s : Sink) : Sink :=
  fold_left (handle h) ys s.

(** [output_path or self.output_path] *)
Definition chosen_path (self : LogDownloader) (path : option string) : string :=
  match path with
  | Some p => if truthy p then p else output_path self
  | None => output_path self
  end.

(** [process_and_write(output_path)].  The round list is settled first;
    then the file is opened with mode ['wb'], hence empty before the first
    write, and closed on every exit.  When the file cannot be opened,
    [open] raises [OSError] before the coordinator is created: no task is
    started, nothing is written or printed.  [run_sink] holds what the call
    wrote into the file and what it printed.  A write into the open file is
    taken to succeed. *)
Definition process_and_write (self : LogDownloader) (sched : list nat)
  (h : Heap) (path : option string) : Run :=
  let out := chosen_path self path in
  let '(h1, rs) :=
    match rounds self with
    | [] => update_round_list h
    | _ :: _ => (h, Some (rounds self))
    end in
  let empty := {| file := EmptyString; printed := [] |} in
  match rs with
  | None =>
      {| run_heap := h1; run_self := self; run_path := out;
         run_sink := empty;
         run_ending := Failed (if open_wb out then TypeError else OSError) |}
  | Some rs =>
      let self' := set_rounds self rs in
      if open_wb out then
        let y := get_logs_async self' sched h1 rs in
        {| run_heap := heap_after y; run_self := self'; run_path := out;
           run_sink := consume (heap_after y) (outcomes y) empty;
           run_ending := ending y |}
      else
        {| run_heap := h1; run_self := self'; run_path := out;
           run_sink := empty; run_ending := Failed OSError |}
  end.

End Downloader.

(** ** Instances for the examples

    The theorems below hold for every parser, template, filter, round
    lister and archive.  The worked examples fix these. *)

Module Demo.

Definition digit (c : ascii) : option Z :=
  let n := Ascii.nat_of_ascii c in
  if (48 <=? n)%nat && (n <=? 57)%nat then Some (Z.of_nat (n - 48)) else None.

Definition number (cs : list ascii) : option Z :=
  fold_left (fun acc c =>
               match acc, digit c with
               | Some n, Some d => Some (10 * n + d)
               | _, _ => None
               end) cs (Some 0).

(** An ISO-8601 reader for texts of the shape [YYYY-MM-DD], alone or
    followed by [T] and a time of day (which the downloader never reads). *)
Definition iso_calendar_date (s : string) : option datetime :=
  match list_ascii_of_string s with
  | y1 :: y2 :: y3 :: y4 :: dash1 :: m1 :: m2 :: dash2 :: d1 :: d2 :: rest =>
      let sep_ok := match rest with
                    | [] => true
                    | t :: _ => Ascii.eqb t "T"
                    end in
      match number [y1; y2; y3; y4], number [m1; m2], number [d1; d2] with
      | Some y, Some m, Some d =>
          if Ascii.eqb dash1 "-" && Ascii.eqb dash2 "-" && sep_ok
             && (1 <=? m) && (m <=? 12) && (1 <=? d) && (d <=? 31)
          then Some {| year := y; month := m; day := d |}
          else None
      | _, _, _ => None
      end
  | _ => None
  end.

Definition plain_url (a : LinkArgs) : string :=
  "https://tgstation13.org/parsed-logs/" +:+ arg_server a +:+ "/data/logs/" +:+
  arg_year a +:+ "/" +:+ arg_month a +:+ "/" +:+ arg_day a +:+ "/round-" +:+
  str (arg_round_id a) +:+ "/game.txt".

Definition admin_url (a : LinkArgs) : string :=
  "https://tgstation13.org/raw-logs/" +:+ arg_server a +:+ "/data/logs/" +:+
  arg_year a +:+ "/" +:+ arg_month a +:+ "/" +:+ arg_day a +:+ "/round-" +:+
  str (arg_round_id a) +:+ "/game.txt".

(** A filter that keeps every line. *)
Definition keep_all (logs : list bytes) : list bytes := logs.

(** A round lister that finds nothing and returns [None]. *)
Definition no_rounds (h : Heap) : Heap * option (list nat) := (h, None).

Definition box42 : RoundData :=
  {| server := "Box"; roundID := 42;
     timestamp := TsText "2023-01-15T20:30:00"; roundStartSuicide := false |}.

Definition bagil7 : RoundData :=
  {| server := "Bagil"; roundID := 7;
     timestamp := TsText "2023-02-03T08:00:00"; roundStartSuicide := true |}.

Definition undated : RoundData :=
  {| server := "Sybil"; roundID := 9;
     timestamp := TsText "yesterday"; roundStartSuicide := false |}.

(** Object 0 is [box42], object 1 is [bagil7], every other one [undated]. *)
Definition heap0 : Heap :=
  fun a => match a with O => box42 | S O => bagil7 | _ => undated end.

Definition url_box42 : string :=
  "https://tgstation13.org/parsed-logs/box/data/logs/2023/01/15/round-42/game.txt".
Definition url_basil7 : string :=
  "https://tgstation13.org/parsed-logs/basil/data/logs/2023/02/03/round-7/game.txt".

(** Archives.  Every URL not listed answers 404. *)
Definition not_found : Reply := Status false "Not Found".

Definition archive (pages : list (string * Reply)) (link : string) : Reply :=
  match List.find (fun p => String.eqb (fst p) link) pages with
  | Some p => snd p
  | None => not_found
  end.

Definition web_both : string -> Reply :=
  archive [(url_box42, Status true ("Foo happened" +:+ CRLF +:+ "Bar happened"));
           (url_basil7, Status true "Baz happened")].

Definition web_none : string -> Reply := archive [].

Definition web_empty_body : string -> Reply :=
  archive [(url_box42, Status true EmptyString)].

Definition web_down : string -> Reply := fun _ => ConnectionFailed.

Definition downloader (rs : list nat) : LogDownloader :=
  {| tgforums_cookie := EmptyString; user_agent := "ss13-tools";
     output_path := "logs.log"; rounds := rs |}.

(** A file system in which the directory [missing/] does not exist and
    every other path can be opened. *)
Definition writable (path : string) : bool :=
  truthy path && negb (String.prefix "missing/" path).

(** The plain and the raw archive of tgstation13.org, read with
    [iso_calendar_date], in front of the pages [w]. *)
Definition env (w : string -> Reply) : Environment :=
  {| isoparse_text := iso_calendar_date;
     GAME_TXT_URL := plain_url;
     GAME_TXT_ADMIN_URL := admin_url;
     web := w;
     open_wb := writable |}.

Definition keeper : Subclass :=
  {| filter_lines := keep_all; update_round_list := no_rounds |}.

Definition get_logs (w : string -> Reply) (sched : list nat) (h : Heap)
  (rs : list nat) : Yielded :=
  @get_logs_async (env w) (downloader rs) sched h rs.

Definition pipeline (w : string -> Reply) (self : LogDownloader)
  (sched : list nat) (h : Heap) : Run :=
  @process_and_write (env w) keeper self sched h None.

(** [heap0] once the timestamps of objects 0 and 1 have been normalised. *)
Definition heap1 : Heap :=
  fun a =>
    match a with
    | O => set_timestamp box42 (TsInstant {| year := 2023; month := 1; day := 15 |})
    | S O => set_timestamp bagil7 (TsInstant {| year := 2023; month := 2; day := 3 |})
    | _ => undated
    end.

End Demo.


(** ** Logging in *)

Section Authentication.

(** What [authenticate] of a subclass works on (the session, the forum) is
    left open. *)
Variable World : Type.

(** [authenticate] of the base class: a docstring and no statement, so the
    call returns [None] and does nothing. *)
Definition authenticate (w : World) : World * option bool := (w, None).

(** [authenticate_interactive]: [answer] is the line that [input] returns;
    [auth] is [self.authenticate], which a subclass may override. *)
Definition authenticate_interactive (auth : World -> World * option bool)
  (answer : string) (w : World) : World * option bool :=
  if existsb (String.eqb (lower answer)) ["y"; "yes"; "true"; "1"]
  then auth w
  else (w, Some false).

End Authentication.

(** ** CentCom ban records ([CentCom/types.py]) *)

Module CentCom.

Inductive RoleplayLevel : Type := Unknown | Low | Medium | High.

Inductive BanType : Type := Server | Job.

(** The fields of the dataclass [BanData], in the order of declaration. *)
Inductive Field : Type :=
| f_id | f_sourceID | f_sourceName | f_sourceRoleplayLevel | f_type
| f_cKey | f_bannedOn | f_bannedBy | f_reason | f_expires | f_unbannedBy
| f_banID | f_jobs | f_banAttributes | f_active.

Definition fields : list Field :=
  [f_id; f_sourceID; f_sourceName; f_sourceRoleplayLevel; f_type;
   f_cKey; f_bannedOn; f_bannedBy; f_reason; f_expires; f_unbannedBy;
   f_banID; f_jobs; f_banAttributes; f_active].

Definition field_name (f : Field) : string :=
  match f with
  | f_id => "id" | f_sourceID => "sourceID" | f_sourceName => "sourceName"
  | f_sourceRoleplayLevel => "sourceRoleplayLevel" | f_type => "type"
  | f_cKey => "cKey" | f_bannedOn => "bannedOn" | f_bannedBy => "bannedBy"
  | f_reason => "reason" | f_expires => "expires" | f_unbannedBy => "unbannedBy"
  | f_banID => "banID" | f_jobs => "jobs" | f_banAttributes => "banAttributes"
  | f_active => "active"
  end.

(** The keyword that names a field, if any. *)
Definition field_of_name (k : string) : option Field :=
  List.find (fun f => String.eqb (field_name f) k) fields.

#[local] Unset Elimination Schemes.

(** A JSON document as [json.loads] reads it.  A number with a fraction or
    an exponent is kept as its literal. *)
Inductive json : Type :=
| JNull
| JBool (b : bool)
| JInt (n : Z)
| JFloat (literal : string)
| JString (s : string)
| JArray (items : list json)
| JObject (members : list (string * json)).

(** The Python values that decoding gives.  A [BanData] object is given by
    the value of each of its fields; nothing checks these values against
    the annotations of the fields. *)
Inductive value : Type :=
| VNone
| VBool (b : bool)
| VInt (n : Z)
| VFloat (literal : string)
| VStr (s : string)
| VList (items : list value)
| VRoleplayLevel (r : RoleplayLevel)
| VBanType (t : BanType)
| VBanData (ban : Field -> value).

#[local] Set Elimination Schemes.

(** The defaults of the dataclass. *)
Definition default (f : Field) : value :=
  match f with
  | f_id | f_sourceID => VInt (-1)
  | f_sourceRoleplayLevel => VRoleplayLevel Unknown
  | f_type => VBanType Server
  | f_bannedOn => VStr "ERROR"
  | f_active => VBool false
  | _ => VNone
  end.

(** [d[k]] in the [dict] that the decoder builds from the members of an
    object: of two members with the same key the later one stays. *)
Fixpoint dict_get {V : Type} (k : string) (d : list (string * V)) : option V :=
  match d with
  | [] => None
  | (k', v) :: d' =>
      match dict_get k d' with
      | Some v' => Some v'
      | None => if String.eqb k' k then Some v else None
      end
  end.

(** The constructor [BanData], called with the entries of [d] as keyword
    arguments: a keyword that names no field raises [TypeError]; a field
    without keyword takes its default. *)
Definition BanData (d : list (string * value)) : exn + value :=
  if forallb (fun kv => match field_of_name (fst kv) with
                        | Some _ => true
                        | None => false
                        end) d
  then inr (VBanData (fun f => match dict_get (field_name f) d with
                              | Some v => v
                              | None => default f
                              end))
  else inl TypeError.

(** Decoding the elements of a list in order, up to the first exception. *)
Definition decode_all {A B : Type} (f : A -> exn + B) : list A -> exn + list B :=
  fix go (l : list A) : exn + list B :=
    match l with
    | [] => inr []
    | x :: l' =>
        match f x with
        | inl e => inl e
        | inr v =>
            match go l' with
            | inl e => inl e
            | inr vs => inr (v :: vs)
            end
        end
    end.

(** The hook's pass of [json.loads(r, object_hook=...)] over the document
    that the scanner reads off [r]: the hook makes a [BanData] of every
    object, innermost first, and its result stands for the object.  The
    scanner itself is the library's: it raises on text that is no JSON,
    and, depending on the interpreter, on an integer literal beyond the
    digit limit and on nesting beyond the recursion limit.  Those
    exceptions are not modelled: [decode] says what the hook adds, on a
    text that the scanner takes. *)
Fixpoint decode (j : json) : exn + value :=
  match j with
  | JNull => inr VNone
  | JBool b => inr (VBool b)
  | JInt n => inr (VInt n)
  | JFloat literal => inr (VFloat literal)
  | JString s => inr (VStr s)
  | JArray items =>
      match decode_all decode items with
      | inl e => inl e
      | inr vs => inr (VList vs)
      end
  | JObject members =>
      match decode_all (fun m => match m with
                                 | (k, j') =>
                                     match decode j' with
                                     | inl e => inl e
                                     | inr v => inr (k, v)
                                     end
                                 end) members with
      | inl e => inl e
      | inr d => BanData d
      end
  end.

(** [BanData.from_json_string(r)] and [BanData.from_response(r)], on the
    document that the text of [r] denotes, for a text that the scanner
    takes. *)
Definition from_json_string (document : json) : exn + value := decode document.

Definition from_response (body : json) : exn + value := decode body.

(** Some object of the document, at any depth, has a key that names no
    field. *)
Fixpoint has_foreign_key (j : json) : bool :=
  match j with
  | JArray items => existsb has_foreign_key items
  | JObject members =>
      existsb (fun m => match m with
                        | (k, j') =>
                            match field_of_name k with
                            | Some _ => has_foreign_key j'
                            | None => true
                            end
                        end) members
  | _ => false
  end.

(** The hook's share of decoding one member of an object. *)
Definition decode_member (m : string * json) : exn + (string * value) :=
  match m with
  | (k, j') =>
      match decode j' with
      | inl e => inl e
      | inr v => inr (k, v)
      end
  end.

(** The key names a field. *)
Definition is_field (k : string) : bool :=
  match field_of_name k with Some _ => true | None => false end.

(** The hook raises [TypeError] on a foreign key and on nothing else. *)
Definition decodes_well (j : json) : Prop :=
  match decode j with
  | inl e => e = TypeError /\ has_foreign_key j = true
  | inr _ => has_foreign_key j = false
  end.

End CentCom.
(** ** Notions used in the statements *)

Section Notions.

Context {env : Environment}.
Variable self : LogDownloader.

Definition is_instant (t : Timestamp) : bool :=
  match t with TsInstant _ => true | TsText _ => false end.

Definition is_finished (t : Task) : Prop :=
  match t with Finished _ => True | _ => False end.

(** The round a task works for, as long as the task can still name it. *)
Definition owned_by (a : nat) (t : Task) : Prop :=
  match t with
  | Created rd | Awaiting rd _ _ _ | Finished (Returned rd _) => rd = a
  | Finished _ => True
  end.

(** An upper bound on the resumptions a task still needs. *)
Definition resumptions_left (t : Task) : nat :=
  match t with
  | Created _ => S (length (rounds self))
  | Awaiting _ _ pos _ => S (length (rounds self) - pos)
  | Finished _ => 0
  end.

(** Task number [j] answers for the round submitted in position [j]. *)
Definition tasks_owned (rs : list nat) (st : Loop) : Prop :=
  forall j a t, rs !! j = Some a -> tasks st !! j = Some t -> owned_by a t.

(** The URLs requested by task [i], oldest first. *)
Definition requests_of (i : nat) (log : list (nat * string)) : list string :=
  map snd (List.filter (fun p => Nat.eqb (fst p) i) log).

(** The archive answers [link] with a status that is not a success. *)
Definition refused (link : string) : Prop :=
  exists body, web link = Status false body.

(** How the state of a task relates to the requests [reqs] it has sent:
    every request but the last was refused, and the last one decides. *)
Definition trace_ok (reqs : list string) (t : Task) : Prop :=
  match t with
  | Created _ => reqs = []
  | Awaiting _ responses pos link =>
      responses = [] /\ length reqs = pos
      /\ exists earlier, reqs = (earlier ++ [link])%list /\ Forall refused earlier
  | Finished (Returned _ response) =>
      exists earlier link,
        reqs = (earlier ++ [link])%list /\ Forall refused earlier
        /\ web link = Status true response
  | Finished ReturnedNone => Forall refused reqs
  | Finished (Raised _) =>
      Forall refused reqs
      \/ exists earlier link,
           reqs = (earlier ++ [link])%list /\ Forall refused earlier
           /\ web link = ConnectionFailed
  end.

(** A task that raised did so in the HTTP client, or every request it
    sent was refused. *)
Definition raised_ok (reqs : list string) (t : Task) : Prop :=
  match t with
  | Finished (Raised e) => e = ClientError \/ Forall refused reqs
  | _ => True
  end.

Definition traces_ok (st : Loop) : Prop :=
  forall i t, tasks st !! i = Some t -> trace_ok (requests_of i (sent st)) t.

(** The number of links a task has taken from its generator. *)
Definition position (t : Task) : nat :=
  match t with
  | Awaiting _ _ pos _ => pos
  | _ => 0
  end.

(** Request number [k] of any task is for the URL of [self.rounds[k]]. *)
Definition requests_in_order (st : Loop) : Prop :=
  forall i k link,
    requests_of i (sent st) !! k = Some link ->
    exists a, rounds self !! k = Some a
              /\ log_link (tgforums_cookie self)
                   (heap st a) = inr link.

(** The rounds of the tasks that got past [isoparse] hold an instant. *)
Definition started_normalised (rs : list nat) (st : Loop) : Prop :=
  forall j a t,
    rs !! j = Some a -> tasks st !! j = Some t ->
    match t with
    | Created _ | Finished (Raised _) => True
    | _ => exists d, timestamp (heap st a) = TsInstant d
    end.

(** The fetch tasks of [get_logs_async(rounds)], in the order of their
    creation, as they stand once the loop has run them. *)
Definition fetch_tasks (sched : list nat) (h : Heap) (rs : list nat) : list Task :=
  tasks (event_loop self sched {| heap := h; tasks := map Created rs; sent := [] |}).

End Notions.


(** ** Further notions *)

(** [w in s]: the text [w] occurs in [s]. *)
Fixpoint contains (w s : string) : bool :=
  String.prefix w s
  || match s with
     | EmptyString => false
     | String _ s' => contains w s'
     end.

Section DriverNotions.

Context {sub : Subclass}.

(** The lines that the driver writes for one outcome. *)
Definition written_lines (h : Heap) (y : Outcome) : list bytes :=
  match snd y with
  | Some (l :: logs) =>
      map (fun line => format_line_bytes line (h (fst y))) (filter_lines (l :: logs))
  | _ => []
  end.

(** The messages that the driver prints for one outcome. *)
Definition messages (h : Heap) (y : Outcome) : list string :=
  match snd y with
  | Some (_ :: _) =>
      if roundStartSuicide (h (fst y)) then [round_start_suicide (h (fst y))] else []
  | _ => [could_not_find (h (fst y))]
  end.

End DriverNotions.

Section LoopNotions.

Context {env : Environment}.

(** [isoparse] accepts the timestamp that object [a] holds. *)
Definition parses (h : Heap) (a : nat) : bool :=
  match isoparse (timestamp (h a)) with
  | inr _ => true
  | inl _ => false
  end.

(** The heap in which every timestamp that [isoparse] accepts has been
    replaced by its instant. *)
Definition normalise (h : Heap) : Heap :=
  fun a =>
    match isoparse (timestamp (h a)) with
    | inr d => set_timestamp (h a) (TsInstant d)
    | inl _ => h a
    end.

(** What trying a list of URLs one after the other comes to. *)
Inductive Search : Type :=
| Found (body : bytes)     (* the first URL served with a success status *)
| Exhausted                (* every URL refused *)
| Broken.                  (* a request failed before any success *)

Fixpoint first_success (links : list string) : Search :=
  match links with
  | [] => Exhausted
  | link :: links' =>
      match web link with
      | Status true body => Found body
      | Status false _ => first_success links'
      | ConnectionFailed => Broken
      end
  end.

Definition search_result (a : nat) (s : Search) : Result :=
  match s with
  | Found body => Returned a body
  | Exhausted => ReturnedNone
  | Broken => Raised ClientError
  end.

(** A task for round [a] that has been started and is on its way through
    [links]. *)
Definition on_course (links : list string) (a : nat) (t : Task) : Prop :=
  match t with
  | Created _ => False
  | Awaiting a' responses pos link =>
      a' = a /\ responses = []
      /\ exists k, pos = S k /\ links !! k = Some link /\ Forall refused (take k links)
  | Finished r => r = search_result a (first_success links)
  end.

End LoopNotions.
(** ** Properties *)

Section Properties.

Context {env : Environment} {sub : Subclass}.
Variable self : LogDownloader.

(** *** Python built-ins *)

Lemma split_crlf_nonempty (b : bytes) : split_crlf b <> [].
Proof.
  destruct b as [|c b]; simpl; [discriminate|].
  destruct b as [|d b]; [discriminate|].
  destruct (Ascii.eqb c CR && Ascii.eqb d LF); [discriminate|].
  destruct (split_crlf (String d b)); discriminate.
Qed.

Lemma join_single (sep b : bytes) : join sep [b] = b.
Proof. reflexivity. Qed.

(** *** One resumption *)

Lemma next_request_cases h rd responses pos :
  (exists r, next_request self h rd responses pos = (Finished r, [])
             /\ (r = ReturnedNone \/ exists e, r = Raised e))
  \/ (exists link, next_request self h rd responses pos
                   = (Awaiting rd responses (S pos) link, [link])
                   /\ (pos < length (rounds self))%nat).
Proof.
  unfold next_request, next_link.
  destruct (rounds self !! pos) as [a|] eqn:Ha.
  - destruct (log_link _ _) as [e|link].
    + left. eauto 6.
    + right. exists link. split; [reflexivity|].
      eapply lookup_lt_Some; eassumption.
  - left. eauto.
Qed.

Lemma step_task_finished h r : step_task self h (Finished r) = (h, Finished r, []).
Proof. reflexivity. Qed.

Lemma step_task_owned h t a :
  owned_by a t -> owned_by a (step_task self h t).1.2.
Proof.
  destruct t as [rd|rd responses pos link|r]; simpl; intros Ho.
  - destruct (isoparse _) as [e|d]; simpl; [exact I|].
    destruct (next_request_cases (heap_set h rd (set_timestamp (h rd) (TsInstant d))) rd [] 0)
      as [(r & -> & Hr)|(link & -> & _)]; simpl; [|exact Ho].
    destruct Hr as [->|[e ->]]; exact I.
  - destruct (web link) as [[|] body|]; simpl; [exact Ho| |exact I].
    destruct (next_request_cases h rd responses pos)
      as [(r & -> & Hr)|(link' & -> & _)]; simpl; [|exact Ho].
    destruct Hr as [->|[e ->]]; exact I.
  - exact Ho.
Qed.

Lemma step_task_progress h t n :
  resumptions_left self t = S n -> (resumptions_left self (step_task self h t).1.2 <= n)%nat.
Proof.
  destruct t as [rd|rd responses pos link|r]; simpl; intros Hn; [| |discriminate].
  - destruct (isoparse _) as [e|d]; simpl; [lia|].
    destruct (next_request_cases (heap_set h rd (set_timestamp (h rd) (TsInstant d))) rd [] 0)
      as [(r & -> & _)|(link & -> & Hlt)]; simpl; lia.
  - destruct (web link) as [[|] body|]; simpl; [lia| |lia].
    destruct (next_request_cases h rd responses pos)
      as [(r & -> & _)|(link' & -> & Hlt)]; simpl; lia.
Qed.

Lemma resumptions_left_0 t : resumptions_left self t = 0%nat -> is_finished t.
Proof. destruct t; simpl; intros H; try discriminate; exact I. Qed.

Lemma resumptions_left_bound t : (resumptions_left self t <= S (length (rounds self)))%nat.
Proof. destruct t; simpl; lia. Qed.


(** *** The event loop *)

Lemma resume_length st i : length (tasks (resume self st i)) = length (tasks st).
Proof.
  unfold resume. destruct (tasks st !! i) as [t|]; [|reflexivity].
  destruct (step_task self (heap st) t) as [[h' t'] req]. simpl.
  apply length_insert.
Qed.

Lemma resume_other st i j :
  i <> j -> tasks (resume self st i) !! j = tasks st !! j.
Proof.
  intros Hij. unfold resume. destruct (tasks st !! i) as [t|]; [|reflexivity].
  destruct (step_task self (heap st) t) as [[h' t'] req]. simpl.
  apply list_lookup_insert_ne. exact Hij.
Qed.

Lemma resume_same st i t :
  tasks st !! i = Some t ->
  tasks (resume self st i) !! i = Some (step_task self (heap st) t).1.2.
Proof.
  intros Ht. unfold resume. rewrite Ht.
  destruct (step_task self (heap st) t) as [[h' t'] req]. simpl.
  apply list_lookup_insert_eq. eapply lookup_lt_Some; eassumption.
Qed.

(** A task is resumed only through its own index: what [resume] does to
    any slot is either nothing or one [step_task]. *)
Lemma resume_lookup st i j t :
  tasks st !! j = Some t ->
  tasks (resume self st i) !! j = Some t
  \/ (i = j /\ tasks (resume self st i) !! j = Some (step_task self (heap st) t).1.2).
Proof.
  intros Ht. destruct (decide (i = j)) as [->|Hne].
  - right. split; [reflexivity|]. apply resume_same. exact Ht.
  - left. rewrite resume_other; assumption.
Qed.

Lemma resume_keeps_finished st i j r :
  tasks st !! j = Some (Finished r) ->
  tasks (resume self st i) !! j = Some (Finished r).
Proof.
  intros Ht. destruct (resume_lookup st i j _ Ht) as [H|[_ H]]; exact H.
Qed.

Lemma run_length sched st : length (tasks (run self sched st)) = length (tasks st).
Proof.
  revert st. induction sched as [|i sched IH]; intros st; [reflexivity|].
  unfold run in *. simpl. rewrite IH. apply resume_length.
Qed.

Lemma iter_resume_length n st i :
  length (tasks (Nat.iter n (fun st' => resume self st' i) st)) = length (tasks st).
Proof.
  induction n as [|n IH]; [reflexivity|]. simpl. rewrite resume_length. exact IH.
Qed.

Lemma finish_length st i : length (tasks (finish self st i)) = length (tasks st).
Proof. apply iter_resume_length. Qed.

Lemma fold_finish_length l st :
  length (tasks (fold_left (finish self) l st)) = length (tasks st).
Proof.
  revert st. induction l as [|i l IH]; intros st; [reflexivity|].
  simpl. rewrite IH. apply finish_length.
Qed.

Lemma drain_length st : length (tasks (drain self st)) = length (tasks st).
Proof. apply fold_finish_length. Qed.

Lemma iter_resume_keeps_finished n st i j r :
  tasks st !! j = Some (Finished r) ->
  tasks (Nat.iter n (fun st' => resume self st' i) st) !! j = Some (Finished r).
Proof.
  intros Ht. induction n as [|n IH]; [exact Ht|].
  simpl. apply resume_keeps_finished. exact IH.
Qed.

(** Resumed [n] times, a task needs [n] resumptions less. *)
Lemma iter_resume_progress n st i t :
  tasks st !! i = Some t ->
  exists t', tasks (Nat.iter n (fun st' => resume self st' i) st) !! i = Some t'
             /\ (resumptions_left self t' <= resumptions_left self t - n)%nat.
Proof.
  intros Ht. induction n as [|n (t' & Ht' & Hle)].
  - exists t. split; [exact Ht|lia].
  - simpl. eexists. split; [apply resume_same; exact Ht'|].
    destruct (resumptions_left self t') as [|k] eqn:Hk.
    + apply resumptions_left_0 in Hk. destruct t'; try contradiction.
      simpl. lia.
    + pose proof (step_task_progress
                    (heap (Nat.iter n (fun st' => resume self st' i) st)) t' k Hk).
      lia.
Qed.

Lemma finish_finishes st i :
  (i < length (tasks st))%nat ->
  exists r, tasks (finish self st i) !! i = Some (Finished r).
Proof.
  intros Hi. destruct (lookup_lt_is_Some_2 _ _ Hi) as [t Ht].
  destruct (iter_resume_progress (S (length (rounds self))) st i t Ht)
    as (t' & Ht' & Hle).
  pose proof (resumptions_left_bound t).
  assert (H0 : resumptions_left self t' = 0%nat) by lia.
  apply resumptions_left_0 in H0. destruct t' as [| |r]; try contradiction.
  exists r. exact Ht'.
Qed.

Lemma fold_finish_finishes l st j :
  (j < length (tasks st))%nat ->
  j ∈ l \/ (exists r, tasks st !! j = Some (Finished r)) ->
  exists r, tasks (fold_left (finish self) l st) !! j = Some (Finished r).
Proof.
  revert st. induction l as [|i l IH]; intros st Hj Hin; simpl.
  - destruct Hin as [Hin|Hfin]; [|exact Hfin].
    apply elem_of_nil in Hin. contradiction.
  - apply IH; [rewrite finish_length; exact Hj|].
    destruct Hin as [Hin|[r Hfin]].
    + apply elem_of_cons in Hin. destruct Hin as [->|Hin]; [|left; exact Hin].
      right. apply finish_finishes. exact Hj.
    + right. exists r. apply iter_resume_keeps_finished. exact Hfin.
Qed.

(** Every task has finished when the loop is drained: each [await task]
    of the coordinator returns. *)
Lemma drain_finishes st j :
  (j < length (tasks st))%nat ->
  exists r, tasks (drain self st) !! j = Some (Finished r).
Proof.
  intros Hj. apply fold_finish_finishes; [exact Hj|].
  left. apply elem_of_seq. lia.
Qed.

Lemma event_loop_length sched st :
  length (tasks (event_loop self sched st)) = length (tasks st).
Proof. unfold event_loop. rewrite drain_length. apply run_length. Qed.

Lemma event_loop_finishes sched st :
  Forall is_finished (tasks (event_loop self sched st)).
Proof.
  apply Forall_lookup. intros j t Ht.
  assert (Hj : (j < length (tasks (run self sched st)))%nat).
  { rewrite <- drain_length. eapply lookup_lt_Some. exact Ht. }
  destruct (drain_finishes _ j Hj) as [r Hr].
  unfold event_loop in Ht. rewrite Hr in Ht. injection Ht as <-. exact I.
Qed.

(** A property of the loop that every resumption keeps is kept by every
    schedule and by the draining. *)
Lemma event_loop_invariant (P : Loop -> Prop) :
  (forall st i, P st -> P (resume self st i)) ->
  forall sched st, P st -> P (event_loop self sched st).
Proof.
  intros Hstep sched st HP.
  assert (Hrun : forall l st', P st' -> P (run self l st')).
  { induction l as [|i l IH]; intros st' H; [exact H|].
    unfold run in *. simpl. apply IH, Hstep, H. }
  assert (Hiter : forall n i st', P st' ->
                    P (Nat.iter n (fun s => resume self s i) st')).
  { induction n as [|n IH]; intros i st' H; [exact H|].
    simpl. apply Hstep, IH, H. }
  assert (Hfold : forall l st', P st' -> P (fold_left (finish self) l st')).
  { induction l as [|i l IH]; intros st' H; [exact H|].
    simpl. apply IH. apply Hiter, H. }
  unfold event_loop, drain. apply Hfold, Hrun, HP.
Qed.

Lemma created_lookup (rs : list nat) j :
  map Created rs !! j = Created <$> rs !! j.
Proof. change (map Created rs) with (Created <$> rs). apply list_lookup_fmap. Qed.

(** *** Which round a task answers for *)

Lemma resume_tasks_owned rs st i :
  tasks_owned rs st -> tasks_owned rs (resume self st i).
Proof.
  intros Hown j a t Ha Ht.
  destruct (tasks st !! j) as [t0|] eqn:Ht0.
  - destruct (resume_lookup st i j t0 Ht0) as [H|[_ H]];
      rewrite H in Ht; injection Ht as <-.
    + eapply Hown; eassumption.
    + apply step_task_owned. eapply Hown; eassumption.
  - apply lookup_ge_None in Ht0. apply lookup_lt_Some in Ht.
    rewrite resume_length in Ht. lia.
Qed.

Lemma created_tasks_owned h rs :
  tasks_owned rs {| heap := h; tasks := map Created rs; sent := [] |}.
Proof.
  intros j a t Ha Ht. simpl in Ht.
  change (map Created rs) with (Created <$> rs) in Ht.
  rewrite list_lookup_fmap, Ha in Ht. injection Ht as <-. reflexivity.
Qed.

(** *** The coordinator's loop over the tasks *)

Lemma collect_in_order ts : forall rs,
  (forall j a t, rs !! j = Some a -> ts !! j = Some t -> owned_by a t) ->
  length ts = length rs ->
  map fst (collect ts).1 = take (length (collect ts).1) rs.
Proof.
  induction ts as [|t ts IH]; intros rs Hown Hlen; [reflexivity|].
  destruct rs as [|a rs]; [discriminate|].
  destruct t as [rd|rd responses pos link|[rd response| |e]]; try reflexivity.
  simpl. destruct (collect ts) as [ys e] eqn:Hc. simpl.
  pose proof (Hown 0%nat a _ eq_refl eq_refl) as H0. simpl in H0. subst rd.
  f_equal. apply (IH rs).
  - intros j b t Hb Ht. exact (Hown (S j) b t Hb Ht).
  - simpl in Hlen. lia.
Qed.

Lemma collect_completed ts :
  (collect ts).2 = Completed -> length (collect ts).1 = length ts.
Proof.
  induction ts as [|t ts IH]; [reflexivity|].
  destruct t as [rd|rd responses pos link|[rd response| |e]]; try discriminate.
  simpl. destruct (collect ts) as [ys e]. simpl in *. intros He. f_equal. auto.
Qed.

Lemma collect_at_most ts : (length (collect ts).1 <= length ts)%nat.
Proof.
  induction ts as [|t ts IH]; [reflexivity|].
  destruct t as [rd|rd responses pos link|[rd response| |e]]; simpl; try lia.
  destruct (collect ts) as [ys e]. simpl in *. lia.
Qed.

Lemma collect_not_blocked ts :
  Forall is_finished ts -> (collect ts).2 <> Blocked.
Proof.
  induction 1 as [|t ts Ht _ IH]; [discriminate|].
  destruct t as [rd|rd responses pos link|[rd response| |e]];
    try contradiction; try discriminate.
  simpl. destruct (collect ts) as [ys e]. exact IH.
Qed.

(** The coordinator stops at the first task that raised. *)
Lemma collect_stops ts : forall j e,
  Forall is_finished ts ->
  ts !! j = Some (Finished (Raised e)) ->
  (length (collect ts).1 <= j)%nat /\ exists e', (collect ts).2 = Failed e'.
Proof.
  induction ts as [|t ts IH]; intros j e Hfin Hj; [discriminate|].
  apply Forall_cons in Hfin. destruct Hfin as [Ht Hfin].
  destruct t as [rd|rd responses pos link|[rd response| |e0]];
    try contradiction; simpl.
  - destruct j as [|j]; [discriminate|]. simpl in Hj.
    destruct (IH j e Hfin Hj) as [Hle He'].
    destruct (collect ts) as [ys e1]. simpl in *. split; [lia|exact He'].
  - split; [lia|eauto].
  - split; [lia|eauto].
Qed.

(** The coordinator raises what the first task without a result raised,
    after the outcomes of the tasks before it. *)
Lemma collect_raises ts : forall j e,
  ts !! j = Some (Finished (Raised e)) ->
  (forall i, (i < j)%nat ->
     exists rd response, ts !! i = Some (Finished (Returned rd response))) ->
  length (collect ts).1 = j /\ (collect ts).2 = Failed e.
Proof.
  induction ts as [|t ts IH]; intros j e Hj Hbefore; [discriminate|].
  destruct j as [|j].
  - simpl in Hj. injection Hj as ->. split; reflexivity.
  - destruct (Hbefore 0%nat) as (rd & response & H0); [lia|].
    simpl in H0. injection H0 as ->. simpl in Hj.
    destruct (IH j e Hj) as [Hlen He].
    { intros i Hi. apply (Hbefore (S i)). lia. }
    simpl. destruct (collect ts) as [ys e1]. simpl in *.
    split; [f_equal; exact Hlen|exact He].
Qed.

(** An exception that leaves the coordinator comes from the task it was
    awaiting: the task raised it, or the task returned [None] and the
    unpacking raised [TypeError]. *)
Lemma collect_failed ts e :
  (collect ts).2 = Failed e ->
  ts !! length (collect ts).1 = Some (Finished (Raised e))
  \/ (ts !! length (collect ts).1 = Some (Finished ReturnedNone) /\ e = TypeError).
Proof.
  induction ts as [|t ts IH]; [discriminate|].
  destruct t as [rd|rd responses pos link|[rd response| |e0]]; simpl;
    try discriminate.
  - destruct (collect ts) as [ys e1]. simpl in *. exact IH.
  - intros H. injection H as <-. right. split; reflexivity.
  - intros H. injection H as <-. left. reflexivity.
Qed.

(** What is yielded for the task in position [j], when the coordinator
    gets that far. *)
Lemma collect_lookup ts : forall j y,
  (collect ts).1 !! j = Some y ->
  exists rd response,
    ts !! j = Some (Finished (Returned rd response)) /\ y = outcome_of rd response.
Proof.
  induction ts as [|t ts IH]; intros j y Hy; [discriminate|].
  destruct t as [rd|rd responses pos link|[rd response| |e0]]; try discriminate.
  simpl in Hy. destruct (collect ts) as [ys e1] eqn:Hc. simpl in *.
  destruct j as [|j]; simpl in *.
  - injection Hy as <-. eauto.
  - apply IH. exact Hy.
Qed.

Lemma outcome_of_never_empty rd response : (outcome_of rd response).2 <> Some [].
Proof.
  unfold outcome_of. simpl. destruct (truthy response); [|discriminate].
  intros H. injection H as H. exact (split_crlf_nonempty _ H).
Qed.

Lemma outcome_of_empty_body rd : outcome_of rd EmptyString = (rd, None).
Proof. reflexivity. Qed.

Lemma get_logs_async_unfold sched h rs :
  let st := event_loop self sched {| heap := h; tasks := map Created rs; sent := [] |} in
  get_logs_async self sched h rs =
  {| heap_after := heap st; outcomes := (collect (tasks st)).1;
     ending := (collect (tasks st)).2; requests := sent st |}.
Proof.
  simpl. unfold get_logs_async. destruct (collect _) as [ys e]. reflexivity.
Qed.

(** The outcomes are those of a prefix of the submitted rounds, in the
    order of submission; the generator never hangs; and when it runs to its
    end, the prefix is the whole list. *)
Lemma get_logs_async_prefix sched h rs :
  let y := get_logs_async self sched h rs in
  map fst (outcomes y) = take (length (outcomes y)) rs
  /\ ending y <> Blocked
  /\ (ending y = Completed -> length (outcomes y) = length rs).
Proof.
  simpl. rewrite get_logs_async_unfold. simpl.
  set (st0 := {| heap := h; tasks := map Created rs; sent := [] |}).
  assert (Hlen : length (tasks (event_loop self sched st0)) = length rs).
  { rewrite event_loop_length. simpl. apply length_map. }
  split; [|split].
  - apply collect_in_order; [|exact Hlen].
    apply (event_loop_invariant (tasks_owned rs)).
    + intros st i. apply resume_tasks_owned.
    + apply created_tasks_owned.
  - apply collect_not_blocked, event_loop_finishes.
  - intros He. rewrite collect_completed; assumption.
Qed.

(** *** What the tasks do to the heap *)

(** A resumption leaves an object alone or replaces its textual timestamp
    by the instant parsed from it. *)
Lemma step_task_heap h t a :
  (step_task self h t).1.1 a = h a
  \/ exists s d, timestamp (h a) = TsText s /\ isoparse_text s = Some d
                 /\ (step_task self h t).1.1 a = set_timestamp (h a) (TsInstant d).
Proof.
  destruct t as [rd|rd responses pos link|r]; simpl.
  - destruct (timestamp (h rd)) as [s|d0] eqn:Hts; simpl; [|left; reflexivity].
    destruct (isoparse_text s) as [d|] eqn:Hs; [|left; reflexivity].
    destruct (next_request self _ rd [] 0%nat) as [t' req]. simpl.
    unfold heap_set. destruct (Nat.eqb_spec a rd) as [->|Hne]; [|left; reflexivity].
    right. exists s, d. auto.
  - left. destruct (web link) as [[|] body|]; simpl; try reflexivity.
    destruct (next_request self h rd responses pos) as [t' req]. reflexivity.
  - left. reflexivity.
Qed.

Lemma resume_heap st i a :
  heap (resume self st i) a = heap st a
  \/ exists s d, timestamp (heap st a) = TsText s /\ isoparse_text s = Some d
                 /\ heap (resume self st i) a = set_timestamp (heap st a) (TsInstant d).
Proof.
  unfold resume. destruct (tasks st !! i) as [t|]; [|left; reflexivity].
  pose proof (step_task_heap (heap st) t a) as H.
  destruct (step_task self (heap st) t) as [[h' t'] req]. exact H.
Qed.

(** The server name, the round id and the suicide flag are never written. *)
Lemma event_loop_fields sched st a :
  let st' := event_loop self sched st in
  server (heap st' a) = server (heap st a)
  /\ roundID (heap st' a) = roundID (heap st a)
  /\ roundStartSuicide (heap st' a) = roundStartSuicide (heap st a).
Proof.
  apply (event_loop_invariant (fun st' =>
           server (heap st' a) = server (heap st a)
           /\ roundID (heap st' a) = roundID (heap st a)
           /\ roundStartSuicide (heap st' a) = roundStartSuicide (heap st a))).
  - intros st1 i (H1 & H2 & H3).
    destruct (resume_heap st1 i a) as [->|(s & d & _ & _ & ->)]; simpl; auto.
  - auto.
Qed.

(** The outcomes name rounds whose server, id and flag are those that were
    submitted. *)
Lemma get_logs_async_fields sched h rs a :
  server (heap_after (get_logs_async self sched h rs) a) = server (h a)
  /\ roundID (heap_after (get_logs_async self sched h rs) a) = roundID (h a)
  /\ roundStartSuicide (heap_after (get_logs_async self sched h rs) a)
     = roundStartSuicide (h a).
Proof.
  rewrite get_logs_async_unfold. simpl.
  apply (event_loop_fields sched {| heap := h; tasks := map Created rs; sent := [] |} a).
Qed.

(** A timestamp that has become an instant stays that instant. *)
Lemma resume_instant st i a d :
  timestamp (heap st a) = TsInstant d ->
  timestamp (heap (resume self st i) a) = TsInstant d.
Proof.
  intros Hd. destruct (resume_heap st i a) as [->|(s & d' & Hs & _)];
    [exact Hd|congruence].
Qed.


(** *** The requests of a task *)

Lemma requests_of_app i log1 log2 :
  requests_of i (log1 ++ log2) = (requests_of i log1 ++ requests_of i log2)%list.
Proof. unfold requests_of. rewrite List.filter_app, map_app. reflexivity. Qed.

Lemma requests_of_own i req : requests_of i (map (pair i) req) = req.
Proof.
  unfold requests_of. induction req as [|l req IH]; [reflexivity|].
  simpl. rewrite Nat.eqb_refl. simpl. f_equal. exact IH.
Qed.

Lemma requests_of_other i j req : i <> j -> requests_of i (map (pair j) req) = [].
Proof.
  intros Hij. unfold requests_of. induction req as [|l req IH]; [reflexivity|].
  simpl. destruct (Nat.eqb_spec j i) as [->|_]; [contradiction|exact IH].
Qed.

Lemma resume_sent st i :
  exists req, sent (resume self st i) = (sent st ++ map (pair i) req)%list
              /\ forall t, tasks st !! i = Some t -> req = (step_task self (heap st) t).2.
Proof.
  unfold resume. destruct (tasks st !! i) as [t|].
  - destruct (step_task self (heap st) t) as [[h' t'] req] eqn:E. simpl.
    exists req. split; [reflexivity|]. intros t0 H. injection H as <-.
    rewrite E. reflexivity.
  - exists []. simpl. rewrite app_nil_r. split; [reflexivity|discriminate].
Qed.

Lemma step_task_trace h t reqs :
  trace_ok reqs t ->
  trace_ok (reqs ++ (step_task self h t).2)%list (step_task self h t).1.2.
Proof.
  destruct t as [rd|rd responses pos link|r]; simpl.
  - intros ->. destruct (isoparse _) as [e|d]; simpl; [left; constructor|].
    destruct (next_request_cases (heap_set h rd (set_timestamp (h rd) (TsInstant d))) rd [] 0)
      as [(r & -> & Hr)|(link & -> & _)]; simpl.
    + destruct Hr as [->|[e ->]]; [constructor|left; constructor].
    + repeat split. exists []. split; [reflexivity|constructor].
  - intros (-> & Hpos & earlier & -> & Hearlier).
    destruct (web link) as [[|] body|] eqn:Hweb; simpl.
    + rewrite app_nil_r. exists earlier, link. auto.
    + assert (Hall : Forall refused (earlier ++ [link])%list).
      { apply Forall_app. split; [exact Hearlier|].
        constructor; [exists body; exact Hweb|constructor]. }
      destruct (next_request_cases h rd [] pos)
        as [(r & -> & Hr)|(link' & -> & _)]; simpl.
      * rewrite app_nil_r. destruct Hr as [->|[e ->]]; [exact Hall|left; exact Hall].
      * split; [reflexivity|]. split.
        { rewrite length_app. simpl. lia. }
        exists (earlier ++ [link])%list. auto.
    + rewrite app_nil_r. right. exists earlier, link. auto.
  - rewrite app_nil_r. auto.
Qed.

Lemma resume_traces_ok st i : traces_ok st -> traces_ok (resume self st i).
Proof.
  intros Hok j t Ht.
  destruct (resume_sent st i) as (req & -> & Hreq).
  rewrite requests_of_app.
  destruct (tasks st !! j) as [t0|] eqn:Ht0.
  - destruct (resume_lookup st i j t0 Ht0) as [H|[-> H]];
      rewrite H in Ht; injection Ht as <-.
    + destruct (decide (i = j)) as [->|Hne].
      * (* the task was resumed and did not change: it had finished *)
        rewrite (Hreq _ Ht0), requests_of_own.
        pose proof (resume_same st j t0 Ht0) as Hs. rewrite H in Hs.
        injection Hs as Hs. rewrite Hs at 2. apply step_task_trace.
        apply Hok. exact Ht0.
      * rewrite requests_of_other by auto. rewrite app_nil_r.
        apply Hok. exact Ht0.
    + rewrite (Hreq _ Ht0), requests_of_own. apply step_task_trace.
      apply Hok. exact Ht0.
  - apply lookup_ge_None in Ht0. apply lookup_lt_Some in Ht.
    rewrite resume_length in Ht. lia.
Qed.

Lemma created_traces_ok h rs :
  traces_ok {| heap := h; tasks := map Created rs; sent := [] |}.
Proof.
  intros i t Ht. simpl in *. change (map Created rs) with (Created <$> rs) in Ht.
  rewrite list_lookup_fmap in Ht. destruct (rs !! i); [|discriminate].
  injection Ht as <-. reflexivity.
Qed.

(** A resumption sends at most one request: for the URL of the configured
    round at the task's position in the generator. *)
Lemma step_task_request h t :
  (step_task self h t).2 = []
  \/ exists link a,
       (step_task self h t).2 = [link] /\ rounds self !! position t = Some a
       /\ log_link (tgforums_cookie self) ((step_task self h t).1.1 a) = inr link.
Proof.
  assert (Hnext : forall h0 rd responses pos,
             (next_request self h0 rd responses pos).2 = []
             \/ exists link a, (next_request self h0 rd responses pos).2 = [link]
                  /\ rounds self !! pos = Some a
                  /\ log_link (tgforums_cookie self) (h0 a) = inr link).
  { intros h0 rd responses pos. unfold next_request, next_link.
    destruct (rounds self !! pos) as [a|]; [|left; reflexivity].
    destruct (log_link _ (h0 a)) as [e|link] eqn:Hl; [left; reflexivity|].
    right. exists link, a. auto. }
  destruct t as [rd|rd responses pos link|r]; simpl.
  - destruct (isoparse _) as [e|d]; [left; reflexivity|].
    specialize (Hnext (heap_set h rd (set_timestamp (h rd) (TsInstant d))) rd [] 0%nat).
    destruct (next_request self _ rd [] 0%nat) as [t' req]. exact Hnext.
  - destruct (web link) as [[|] body|]; [left; reflexivity| |left; reflexivity].
    specialize (Hnext h rd responses pos).
    destruct (next_request self h rd responses pos) as [t' req]. exact Hnext.
  - left. reflexivity.
Qed.

Lemma trace_ok_position reqs t :
  trace_ok reqs t -> ~ is_finished t -> length reqs = position t.
Proof.
  destruct t as [rd|rd responses pos link|r]; simpl.
  - intros -> _. reflexivity.
  - intros (_ & H & _) _. exact H.
  - intros _ H. destruct (H I).
Qed.

Lemma log_link_instant cookie rnd link :
  log_link cookie rnd = inr link -> exists d, timestamp rnd = TsInstant d.
Proof.
  unfold log_link. destruct (timestamp rnd) as [s|d]; [discriminate|eauto].
Qed.

Lemma resume_requests_in_order st i :
  traces_ok st -> requests_in_order self st -> requests_in_order self (resume self st i).
Proof.
  intros Hok Hord j k link Hk.
  assert (Hkeep : forall a l,
             log_link (tgforums_cookie self) (heap st a) = inr l ->
             log_link (tgforums_cookie self) (heap (resume self st i) a) = inr l).
  { intros a l Hl. destruct (log_link_instant _ _ _ Hl) as [d Hd].
    destruct (resume_heap st i a) as [->|(s & d' & Hs & _)]; [exact Hl|congruence]. }
  destruct (resume_sent st i) as (req & Hsent & Hreq).
  rewrite Hsent, requests_of_app in Hk.
  destruct (decide (k < length (requests_of j (sent st)))%nat) as [Hlt|Hge].
  - rewrite lookup_app_l in Hk by exact Hlt.
    destruct (Hord j k link Hk) as (a & Ha & Hl). exists a. auto.
  - rewrite lookup_app_r in Hk by lia.
    destruct (decide (j = i)) as [->|Hne];
      [|rewrite requests_of_other in Hk by exact Hne; discriminate].
    rewrite requests_of_own in Hk.
    destruct (tasks st !! i) as [t|] eqn:Ht.
    + rewrite (Hreq t eq_refl) in Hk.
      destruct (step_task_request (heap st) t) as [Hnil|(l & a & Hone & Ha & Hl)].
      * rewrite Hnil in Hk. discriminate.
      * rewrite Hone in Hk.
        destruct (k - length (requests_of i (sent st)))%nat as [|n] eqn:Hdiff;
          [|discriminate].
        injection Hk as <-.
        assert (Hnf : ~ is_finished t).
        { intros Hf. destruct t as [| |r]; try contradiction. discriminate. }
        pose proof (trace_ok_position _ _ (Hok i t Ht) Hnf) as Hpos.
        exists a. split; [replace k with (position t) by lia; exact Ha|].
        unfold resume. rewrite Ht.
        destruct (step_task self (heap st) t) as [[h' t'] req']. exact Hl.
    + exfalso. unfold resume in Hsent. rewrite Ht in Hsent.
      apply (f_equal (@length _)) in Hsent. rewrite length_app, length_map in Hsent.
      destruct req; [discriminate|simpl in Hsent; lia].
Qed.

(** Both facts about the requests hold in every state of the loop. *)
Lemma get_logs_async_requests sched h rs :
  let st := event_loop self sched {| heap := h; tasks := map Created rs; sent := [] |} in
  traces_ok st /\ requests_in_order self st.
Proof.
  apply (event_loop_invariant (fun st => traces_ok st /\ requests_in_order self st)).
  - intros st i [H1 H2]. split;
      [apply resume_traces_ok|apply resume_requests_in_order]; assumption.
  - split; [apply created_traces_ok|]. intros i k link H. discriminate.
Qed.

(** *** A request that fails at network level *)

Lemma step_task_raised h t reqs :
  trace_ok reqs t -> raised_ok reqs t ->
  raised_ok (reqs ++ (step_task self h t).2)%list (step_task self h t).1.2.
Proof.
  destruct t as [rd|rd responses pos link|r]; simpl.
  - intros -> _. destruct (isoparse _) as [e|d]; simpl; [right; constructor|].
    destruct (next_request_cases (heap_set h rd (set_timestamp (h rd) (TsInstant d))) rd [] 0)
      as [(r & -> & Hr)|(link & -> & _)]; simpl; [|exact I].
    destruct Hr as [->|[e ->]]; [exact I|right; constructor].
  - intros (-> & Hpos & earlier & -> & Hearlier) _.
    destruct (web link) as [[|] body|] eqn:Hweb; simpl.
    + exact I.
    + assert (Hall : Forall refused (earlier ++ [link])%list).
      { apply Forall_app. split; [exact Hearlier|].
        constructor; [exists body; exact Hweb|constructor]. }
      destruct (next_request_cases h rd [] pos)
        as [(r & -> & Hr)|(link' & -> & _)]; simpl; [|exact I].
      rewrite app_nil_r. destruct Hr as [->|[e ->]]; [exact I|right; exact Hall].
    + left. reflexivity.
  - rewrite app_nil_r. auto.
Qed.

Lemma resume_raised_ok st i :
  traces_ok st ->
  (forall j t, tasks st !! j = Some t -> raised_ok (requests_of j (sent st)) t) ->
  forall j t, tasks (resume self st i) !! j = Some t ->
    raised_ok (requests_of j (sent (resume self st i))) t.
Proof.
  intros Hok Hr j t Ht.
  destruct (resume_sent st i) as (req & -> & Hreq).
  rewrite requests_of_app.
  destruct (tasks st !! j) as [t0|] eqn:Ht0.
  - destruct (resume_lookup st i j t0 Ht0) as [H|[-> H]];
      rewrite H in Ht; injection Ht as <-.
    + destruct (decide (i = j)) as [->|Hne].
      * rewrite (Hreq _ Ht0), requests_of_own.
        pose proof (resume_same st j t0 Ht0) as Hs. rewrite H in Hs.
        injection Hs as Hs. rewrite Hs at 2. apply step_task_raised.
        -- apply Hok. exact Ht0.
        -- apply Hr. exact Ht0.
      * rewrite requests_of_other by auto. rewrite app_nil_r.
        apply Hr. exact Ht0.
    + rewrite (Hreq _ Ht0), requests_of_own. apply step_task_raised.
      * apply Hok. exact Ht0.
      * apply Hr. exact Ht0.
  - apply lookup_ge_None in Ht0. apply lookup_lt_Some in Ht.
    rewrite resume_length in Ht. lia.
Qed.

(** A task whose last request met a failure of the connection has raised
    the exception of the HTTP client, whatever the schedule. *)
Lemma connection_failure_raises sched h rs j earlier link :
  (j < length rs)%nat ->
  requests_of j (requests (get_logs_async self sched h rs)) = (earlier ++ [link])%list ->
  web link = ConnectionFailed ->
  fetch_tasks self sched h rs !! j = Some (Finished (Raised ClientError)).
Proof.
  rewrite get_logs_async_unfold. simpl. unfold fetch_tasks.
  set (st0 := {| heap := h; tasks := map Created rs; sent := [] |}).
  intros Hj Hreqs Hweb.
  assert (Hinv : traces_ok (event_loop self sched st0)
                 /\ forall i t, tasks (event_loop self sched st0) !! i = Some t ->
                      raised_ok (requests_of i (sent (event_loop self sched st0))) t).
  { apply (event_loop_invariant (fun st =>
             traces_ok st
             /\ forall i t, tasks st !! i = Some t ->
                  raised_ok (requests_of i (sent st)) t)).
    - intros st i [H1 H2]. split;
        [apply resume_traces_ok; exact H1|apply resume_raised_ok; assumption].
    - split; [apply created_traces_ok|].
      intros i t Ht. simpl in Ht. rewrite created_lookup in Ht.
      destruct (rs !! i); [|discriminate]. injection Ht as <-. exact I. }
  destruct Hinv as [Hok Hr].
  assert (Hlt : (j < length (tasks (event_loop self sched st0)))%nat).
  { rewrite event_loop_length. simpl. rewrite length_map. exact Hj. }
  destruct (lookup_lt_is_Some_2 _ _ Hlt) as [t Ht].
  pose proof (event_loop_finishes sched st0) as Hfin.
  rewrite Forall_lookup in Hfin. specialize (Hfin j t Ht).
  specialize (Hok j t Ht). specialize (Hr j t Ht).
  rewrite Hreqs in Hok, Hr.
  assert (Hnot : ~ Forall refused (earlier ++ [link])%list).
  { intros Hall. apply Forall_app in Hall. destruct Hall as [_ Hl].
    apply Forall_cons in Hl. destruct Hl as [[body Hb] _]. congruence. }
  destruct t as [rd|rd responses pos l|[rd response| |e]];
    simpl in Hfin, Hok, Hr; try contradiction.
  - destruct Hok as (earlier' & link' & Heq & _ & Hweb').
    apply app_inj_tail in Heq. destruct Heq as [_ <-]. congruence.
  - destruct Hr as [->|Hall]; [exact Ht|contradiction].
Qed.

(** *** Running the pipeline again *)

(** A task whose round has a timestamp that [isoparse] does not accept
    ends with the exception of [isoparse], whatever the schedule. *)
Lemma isoparse_failure_raises sched h rs j a e :
  rs !! j = Some a ->
  isoparse (timestamp (h a)) = inl e ->
  tasks (event_loop self sched {| heap := h; tasks := map Created rs; sent := [] |}) !! j
  = Some (Finished (Raised e)).
Proof.
  intros Hj He.
  set (st0 := {| heap := h; tasks := map Created rs; sent := [] |}).
  assert (Hinv : isoparse (timestamp (heap (event_loop self sched st0) a)) = inl e
                 /\ (tasks (event_loop self sched st0) !! j = Some (Created a)
                     \/ tasks (event_loop self sched st0) !! j
                        = Some (Finished (Raised e)))).
  { apply (event_loop_invariant (fun st =>
             isoparse (timestamp (heap st a)) = inl e
             /\ (tasks st !! j = Some (Created a)
                 \/ tasks st !! j = Some (Finished (Raised e))))).
    - intros st i [Hh Ht].
      assert (Hh' : isoparse (timestamp (heap (resume self st i) a)) = inl e).
      { destruct (resume_heap st i a) as [->|(s & d & Hs & Hd & _)]; [exact Hh|].
        rewrite Hs in Hh. simpl in Hh. rewrite Hd in Hh. discriminate. }
      split; [exact Hh'|]. destruct Ht as [Ht|Ht].
      + destruct (resume_lookup st i j _ Ht) as [H|[_ H]]; [left; exact H|].
        right. rewrite H. simpl. rewrite Hh. reflexivity.
      + right. apply resume_keeps_finished. exact Ht.
    - split; [exact He|]. left. simpl.
      rewrite created_lookup, Hj. reflexivity. }
  destruct Hinv as [_ [Hc|Hr]]; [|exact Hr].
  pose proof (event_loop_finishes sched st0) as Hfin.
  rewrite Forall_lookup in Hfin. destruct (Hfin j _ Hc).
Qed.

Lemma resume_started_normalised rs st i :
  tasks_owned rs st -> started_normalised rs st ->
  started_normalised rs (resume self st i).
Proof.
  intros Hown Hnorm j a t Ha Ht.
  assert (Hkeep : forall t0 : Task,
            match t0 with
            | Created _ | Finished (Raised _) => True
            | _ => exists d, timestamp (heap st a) = TsInstant d
            end ->
            match t0 with
            | Created _ | Finished (Raised _) => True
            | _ => exists d, timestamp (heap (resume self st i) a) = TsInstant d
            end).
  { intros t0 H.
    destruct t0 as [rd|rd responses pos link|[rd response| |e]]; try exact I;
      destruct H as [d Hd]; exists d; apply resume_instant; exact Hd. }
  destruct (tasks st !! j) as [t0|] eqn:Ht0.
  - pose proof (Hnorm j a t0 Ha Ht0) as H0.
    destruct (resume_lookup st i j t0 Ht0) as [H|[-> H]];
      rewrite H in Ht; injection Ht as <-.
    + apply Hkeep; exact H0.
    + assert (Hheap : heap (resume self st j) = (step_task self (heap st) t0).1.1).
      { unfold resume. rewrite Ht0.
        destruct (step_task self (heap st) t0) as [[h' t'] req]. reflexivity. }
      destruct t0 as [rd|rd responses pos link|r].
      * pose proof (Hown j a _ Ha Ht0) as Hrd. simpl in Hrd. subst rd.
        rewrite Hheap. simpl.
        destruct (isoparse (timestamp (heap st a))) as [e|d]; simpl; [exact I|].
        assert (Hd : exists d', timestamp
                       (heap_set (heap st) a (set_timestamp (heap st a) (TsInstant d)) a)
                     = TsInstant d').
        { exists d. unfold heap_set. rewrite Nat.eqb_refl. reflexivity. }
        destruct (next_request_cases
                    (heap_set (heap st) a (set_timestamp (heap st a) (TsInstant d))) a [] 0)
          as [(r & -> & Hr)|(link & -> & _)]; simpl; [|exact Hd].
        destruct Hr as [->|[e ->]]; [exact Hd|exact I].
      * destruct H0 as [d Hd].
        assert (Hd' : exists d', timestamp (heap (resume self st j) a) = TsInstant d').
        { exists d. apply resume_instant. exact Hd. }
        destruct ((step_task self (heap st) (Awaiting rd responses pos link)).1.2)
          as [rd'|rd' responses' pos' link'|[rd' response'| |e]]; auto.
      * simpl. apply (Hkeep (Finished r)); exact H0.
  - apply lookup_ge_None in Ht0. apply lookup_lt_Some in Ht.
    rewrite resume_length in Ht. lia.
Qed.

Lemma collect_completed_returned ts j t :
  (collect ts).2 = Completed -> ts !! j = Some t ->
  exists rd response, t = Finished (Returned rd response).
Proof.
  revert j. induction ts as [|t0 ts IH]; intros j He Hj; [discriminate|].
  destruct t0 as [rd|rd responses pos link|[rd response| |e]]; try discriminate.
  simpl in He. destruct (collect ts) as [ys e] eqn:Hc. simpl in He.
  destruct j as [|j]; simpl in Hj.
  - injection Hj as <-. eauto.
  - apply (IH j); [exact He|exact Hj].
Qed.

(** After a run that went to its end, every submitted round holds an
    instant. *)
Lemma completed_run_normalises sched h rs a :
  ending (get_logs_async self sched h rs) = Completed ->
  a ∈ rs ->
  exists d, timestamp (heap_after (get_logs_async self sched h rs) a) = TsInstant d.
Proof.
  rewrite get_logs_async_unfold. simpl.
  set (st0 := {| heap := h; tasks := map Created rs; sent := [] |}).
  intros He Ha. apply list_elem_of_lookup in Ha. destruct Ha as [j Hj].
  assert (Hinv : tasks_owned rs (event_loop self sched st0)
                 /\ started_normalised rs (event_loop self sched st0)).
  { apply (event_loop_invariant (fun st =>
             tasks_owned rs st /\ started_normalised rs st)).
    - intros st i [H1 H2]. split;
        [apply resume_tasks_owned|apply resume_started_normalised]; assumption.
    - split; [apply created_tasks_owned|].
      intros k b t Hb Ht. simpl in Ht.
      change (map Created rs) with (Created <$> rs) in Ht.
      rewrite list_lookup_fmap in Ht. destruct (rs !! k); [|discriminate].
      injection Ht as <-. exact I. }
  destruct Hinv as [_ Hnorm].
  assert (Hlt : (j < length (tasks (event_loop self sched st0)))%nat).
  { rewrite event_loop_length. simpl. rewrite length_map.
    eapply lookup_lt_Some. exact Hj. }
  destruct (lookup_lt_is_Some_2 _ _ Hlt) as [t Ht].
  destruct (collect_completed_returned _ j t He Ht) as (rd & response & ->).
  exact (Hnorm j a _ Hj Ht).
Qed.

(** With a round list at hand and a file that opens, [process_and_write]
    feeds the outcomes of [get_logs_async(self.rounds)] to the loop body,
    starting from an empty file. *)
Lemma process_and_write_given sched h path :
  rounds self <> [] ->
  open_wb (chosen_path self path) = true ->
  process_and_write self sched h path
  = {| run_heap := heap_after (get_logs_async self sched h (rounds self));
       run_self := self;
       run_path := chosen_path self path;
       run_sink := consume
                     (heap_after (get_logs_async self sched h (rounds self)))
                     (outcomes (get_logs_async self sched h (rounds self)))
                     {| file := EmptyString; printed := [] |};
       run_ending := ending (get_logs_async self sched h (rounds self)) |}.
Proof.
  intros Hne Hopen. unfold process_and_write. rewrite Hopen.
  destruct (rounds self) as [|a rs] eqn:Hrs; [contradiction|].
  assert (Hself : set_rounds self (a :: rs) = self).
  { destruct self as [c u o r]. simpl in *. subst r. reflexivity. }
  rewrite Hself. reflexivity.
Qed.

(** With a round list at hand and a file that does not open,
    [process_and_write] raises [OSError] and does nothing else. *)
Lemma process_and_write_unopened sched h path :
  rounds self <> [] ->
  open_wb (chosen_path self path) = false ->
  process_and_write self sched h path
  = {| run_heap := h;
       run_self := self;
       run_path := chosen_path self path;
       run_sink := {| file := EmptyString; printed := [] |};
       run_ending := Failed OSError |}.
Proof.
  intros Hne Hopen. unfold process_and_write. rewrite Hopen.
  destruct (rounds self) as [|a rs] eqn:Hrs; [contradiction|].
  assert (Hself : set_rounds self (a :: rs) = self).
  { destruct self as [c u o r]. simpl in *. subst r. reflexivity. }
  rewrite Hself. reflexivity.
Qed.



(** *** A round that the archive does not have *)

(** The only configured round, with a timestamp that parses, and an
    archive that refuses its URL: under every schedule the task leaves its
    loop without a result, and the coordinator raises [TypeError] where the
    outcome [(round, None)] was due. *)
Lemma sole_round_not_found sched h a s d link body :
  rounds self = [a] ->
  timestamp (h a) = TsText s ->
  isoparse_text s = Some d ->
  log_link (tgforums_cookie self) (set_timestamp (h a) (TsInstant d)) = inr link ->
  web link = Status false body ->
  outcomes (get_logs_async self sched h [a]) = []
  /\ ending (get_logs_async self sched h [a]) = Failed TypeError.
Proof.
  intros Hrs Hts Hs Hlink Hweb.
  rewrite get_logs_async_unfold. simpl.
  set (st0 := {| heap := h; tasks := [Created a]; sent := [] |}).
  assert (Hinv : (tasks (event_loop self sched st0) = [Created a]
                  /\ heap (event_loop self sched st0) a = h a)
                 \/ (tasks (event_loop self sched st0) = [Awaiting a [] 1 link]
                     /\ heap (event_loop self sched st0) a
                        = set_timestamp (h a) (TsInstant d))
                 \/ tasks (event_loop self sched st0) = [Finished ReturnedNone]).
  { apply (event_loop_invariant (fun st =>
             (tasks st = [Created a] /\ heap st a = h a)
             \/ (tasks st = [Awaiting a [] 1 link]
                 /\ heap st a = set_timestamp (h a) (TsInstant d))
             \/ tasks st = [Finished ReturnedNone])).
    - intros st i Hst. destruct i as [|i].
      2:{ assert (Hnone : tasks st !! S i = None)
            by (destruct Hst as [[-> _]|[[-> _]| ->]]; reflexivity).
          unfold resume. rewrite Hnone. exact Hst. }
      unfold resume.
      destruct Hst as [[Ht Hh]|[[Ht Hh]|Ht]]; rewrite Ht; simpl.
      + rewrite Hh, Hts. simpl. rewrite Hs.
        unfold next_request, next_link. rewrite Hrs. simpl.
        assert (Hnew : heap_set (heap st) a (set_timestamp (h a) (TsInstant d)) a
                       = set_timestamp (h a) (TsInstant d)).
        { unfold heap_set. rewrite Nat.eqb_refl. reflexivity. }
        rewrite Hnew, Hlink. simpl.
        right. left. split; [reflexivity|exact Hnew].
      + rewrite Hweb. unfold next_request, next_link. rewrite Hrs. simpl.
        right. right. reflexivity.
      + right. right. reflexivity.
    - left. split; reflexivity. }
  pose proof (event_loop_finishes sched st0) as Hfin.
  destruct Hinv as [[Ht _]|[[Ht _]|Ht]]; rewrite Ht in *.
  - apply Forall_cons in Hfin. destruct Hfin as [[] _].
  - apply Forall_cons in Hfin. destruct Hfin as [[] _].
  - split; reflexivity.
Qed.

(** *** The driver *)

Lemma append_cons (x : ascii) (a b : string) : String x a +:+ b = String x (a +:+ b).
Proof. reflexivity. Qed.

Lemma append_empty_l (a : string) : EmptyString +:+ a = a.
Proof. reflexivity. Qed.

Lemma append_assoc (a b c : string) : (a +:+ b) +:+ c = a +:+ (b +:+ c).
Proof.
  induction a as [|x a IH]; [reflexivity|].
  rewrite !append_cons, IH. reflexivity.
Qed.

Lemma append_empty_r (a : string) : a +:+ EmptyString = a.
Proof.
  induction a as [|x a IH]; [reflexivity|].
  rewrite append_cons, IH. reflexivity.
Qed.

(** Writing the tagged lines one after the other appends their
    concatenation to the file and prints nothing. *)
Lemma write_lines round_data lines s :
  fold_left (fun s' line => write s' (format_line_bytes line round_data)) lines s
  = {| file := file s +:+
               String.concat EmptyString
                 (map (fun line => format_line_bytes line round_data) lines);
       printed := printed s |}.
Proof.
  revert s. induction lines as [|l lines IH]; intros s; simpl.
  - rewrite append_empty_r. destruct s; reflexivity.
  - rewrite IH. simpl. f_equal. rewrite append_assoc. f_equal.
    destruct lines as [|l' lines]; simpl; [rewrite append_empty_r|]; reflexivity.
Qed.

(** What one outcome adds to the sink does not depend on what the sink
    already holds. *)
Lemma handle_appends h s y :
  handle h s y
  = {| file := file s +:+ file (handle h {| file := EmptyString; printed := [] |} y);
       printed := printed s ++ printed (handle h {| file := EmptyString; printed := [] |} y) |}.
Proof.
  unfold handle. destruct (snd y) as [[|l logs]|]; simpl;
    try (unfold print; simpl; rewrite append_empty_r; reflexivity).
  rewrite !write_lines.
  destruct (roundStartSuicide (h (fst y))); simpl; rewrite ?app_nil_r; reflexivity.
Qed.

Lemma consume_appends h ys : forall s,
  consume h ys s
  = {| file := file s +:+ file (consume h ys {| file := EmptyString; printed := [] |});
       printed := printed s ++ printed (consume h ys {| file := EmptyString; printed := [] |}) |}.
Proof.
  unfold consume. induction ys as [|y ys IH]; intros s; simpl.
  - rewrite append_empty_r, app_nil_r. destruct s; reflexivity.
  - rewrite IH. rewrite (IH (handle h _ y)). simpl.
    rewrite (handle_appends h s y). simpl.
    rewrite append_assoc, app_assoc. reflexivity.
Qed.

Lemma consume_app h ys1 ys2 s :
  consume h (ys1 ++ ys2) s = consume h ys2 (consume h ys1 s).
Proof. unfold consume. apply fold_left_app. Qed.

(** In a run of [process_and_write] whose coordinator yields an absent
    outcome between the outcomes [pre] and [post], the file holds what
    [pre] and [post] wrote and nothing for the absent round, and the status
    channel holds one warning for it, between theirs. *)
Lemma process_and_write_absent_round sched h path pre a post :
  rounds self <> [] ->
  open_wb (chosen_path self path) = true ->
  outcomes (get_logs_async self sched h (rounds self)) = (pre ++ (a, None) :: post)%list ->
  let h' := heap_after (get_logs_async self sched h (rounds self)) in
  let empty := {| file := EmptyString; printed := [] |} in
  file (run_sink (process_and_write self sched h path))
  = file (consume h' pre empty) +:+ file (consume h' post empty)
  /\ printed (run_sink (process_and_write self sched h path))
     = (printed (consume h' pre empty) ++ [could_not_find (h a)]
        ++ printed (consume h' post empty))%list.
Proof.
  intros Hne Hopen Hys. simpl.
  rewrite (process_and_write_given sched h path Hne Hopen). simpl. rewrite Hys.
  rewrite consume_app. change ((a, None) :: post) with ([(a, None)] ++ post)%list.
  rewrite consume_app, consume_appends. simpl.
  destruct (get_logs_async_fields sched h (rounds self) a) as (Hs & Hi & _).
  unfold could_not_find. rewrite Hs, Hi.
  split; [reflexivity|]. rewrite <- app_assoc. reflexivity.
Qed.

(** *** The coordinator: order of the outcomes *)

(** C1 (amended).  Whatever the order in which the loop resumes the fetch
    tasks and the tasks complete, [get_logs_async] yields its outcomes in
    the order of submission, one per round, for the rounds that come before
    the first one whose task gives no result; it never hangs; and when the
    generator runs to its end it has yielded exactly one outcome for every
    submitted round, in the order of submission.  An exception raised in a
    fetch task is raised again where the coordinator awaits that task, that
    is, once every task created before it has returned its pair: the
    generator then ends with this very exception, after exactly the
    outcomes of the rounds submitted before.  A task whose last request
    met a failure of the connection has raised the exception of the HTTP
    client.  And an exception that leaves the generator is the one raised
    by the task it was awaiting, or the [TypeError] of unpacking the [None]
    that this task returned. *)
Theorem get_logs_async_submission_order sched h rs :
  map fst (outcomes (get_logs_async self sched h rs))
  = take (length (outcomes (get_logs_async self sched h rs))) rs
  /\ ending (get_logs_async self sched h rs) <> Blocked
  /\ (ending (get_logs_async self sched h rs) = Completed ->
      map fst (outcomes (get_logs_async self sched h rs)) = rs
      /\ length (outcomes (get_logs_async self sched h rs)) = length rs)
  /\ (forall j e,
        fetch_tasks self sched h rs !! j = Some (Finished (Raised e)) ->
        (forall i, (i < j)%nat ->
           exists rd response,
             fetch_tasks self sched h rs !! i = Some (Finished (Returned rd response))) ->
        ending (get_logs_async self sched h rs) = Failed e
        /\ length (outcomes (get_logs_async self sched h rs)) = j
        /\ map fst (outcomes (get_logs_async self sched h rs)) = take j rs)
  /\ (forall j earlier link,
        (j < length rs)%nat ->
        requests_of j (requests (get_logs_async self sched h rs))
        = (earlier ++ [link])%list ->
        web link = ConnectionFailed ->
        fetch_tasks self sched h rs !! j = Some (Finished (Raised ClientError)))
  /\ (forall e,
        ending (get_logs_async self sched h rs) = Failed e ->
        fetch_tasks self sched h rs
          !! length (outcomes (get_logs_async self sched h rs))
        = Some (Finished (Raised e))
        \/ (fetch_tasks self sched h rs
              !! length (outcomes (get_logs_async self sched h rs))
            = Some (Finished ReturnedNone)
            /\ e = TypeError)).
Proof.
  destruct (get_logs_async_prefix sched h rs) as (Hpre & Hnb & Hall).
  split; [exact Hpre|]. split; [exact Hnb|].
  split.
  { intros He. specialize (Hall He). split; [|exact Hall].
    rewrite Hpre, Hall. apply firstn_all. }
  split.
  - intros j e Hj Hbefore.
    assert (H : length (outcomes (get_logs_async self sched h rs)) = j
                /\ ending (get_logs_async self sched h rs) = Failed e).
    { rewrite get_logs_async_unfold. simpl.
      apply collect_raises; [exact Hj|exact Hbefore]. }
    destruct H as [Hlen He]. split; [exact He|]. split; [exact Hlen|].
    rewrite Hpre, Hlen. reflexivity.
  - split; [intros j earlier link; apply connection_failure_raises|].
    intros e. rewrite get_logs_async_unfold. simpl. apply collect_failed.
Qed.

(** What is yielded for the round in position [i]: the body of the last
    URL its task requested, which is the first one that the archive served
    with a success status; the URLs the task tried are those of the
    configured rounds [self.rounds[0]], [self.rounds[1]], ... in this
    order, whichever round the task was started for. *)
Lemma get_logs_async_first_success sched h rs i y0 :
  outcomes (get_logs_async self sched h rs) !! i = Some y0 ->
  exists a earlier link body,
    rs !! i = Some a
    /\ requests_of i (requests (get_logs_async self sched h rs)) = (earlier ++ [link])%list
    /\ Forall refused earlier
    /\ web link = Status true body
    /\ y0 = outcome_of a body
    /\ forall k l, (earlier ++ [link])%list !! k = Some l ->
         exists b, rounds self !! k = Some b
                   /\ log_link (tgforums_cookie self)
                        (heap_after (get_logs_async self sched h rs) b) = inr l.
Proof.
  rewrite get_logs_async_unfold. simpl.
  set (st0 := {| heap := h; tasks := map Created rs; sent := [] |}).
  intros Hy. destruct (collect_lookup _ _ _ Hy) as (rd & response & Ht & ->).
  destruct (get_logs_async_requests sched h rs) as [Hok Hord].
  fold st0 in Hok, Hord.
  destruct (Hok i _ Ht) as (earlier & link & Hreqs & Hearlier & Hweb).
  assert (Hi : (i < length rs)%nat).
  { apply lookup_lt_Some in Ht. rewrite event_loop_length in Ht.
    simpl in Ht. rewrite length_map in Ht. exact Ht. }
  destruct (lookup_lt_is_Some_2 _ _ Hi) as [a Ha].
  assert (Hown : tasks_owned rs (event_loop self sched st0)).
  { apply (event_loop_invariant (tasks_owned rs)).
    - intros st j. apply resume_tasks_owned.
    - apply created_tasks_owned. }
  pose proof (Hown i a _ Ha Ht) as Hrd. simpl in Hrd. subst rd.
  exists a, earlier, link, response. repeat split; try assumption.
  intros k l Hk. apply (Hord i). rewrite Hreqs. exact Hk.
Qed.

(** X18.  When the last URL requested by the task of a round,
    which is the first one that the archive serves to it with a success
    status, has an empty body, the outcome yielded for that round is
    [None]; and no outcome ever carries an empty list of lines. *)
Theorem get_logs_async_empty_body sched h rs :
  (forall i a earlier link,
      rs !! i = Some a ->
      requests_of i (requests (get_logs_async self sched h rs)) = (earlier ++ [link])%list ->
      web link = Status true EmptyString ->
      (i < length (outcomes (get_logs_async self sched h rs)))%nat ->
      outcomes (get_logs_async self sched h rs) !! i = Some (a, None))
  /\ (forall i a logs,
      outcomes (get_logs_async self sched h rs) !! i = Some (a, logs) ->
      logs <> Some []).
Proof.
  split.
  - intros i a earlier link Ha Hreqs Hweb Hi.
    destruct (outcomes (get_logs_async self sched h rs) !! i) as [y0|] eqn:Hy0;
      [|apply lookup_ge_None in Hy0;
        destruct (Nat.lt_irrefl _ (Nat.lt_le_trans _ _ _ Hi Hy0))].
    destruct (get_logs_async_first_success sched h rs i y0 Hy0)
      as (a' & earlier' & link' & body & Ha' & Hreqs' & _ & Hweb' & -> & _).
    rewrite Hreqs in Hreqs'. apply app_inj_tail in Hreqs'.
    destruct Hreqs' as [_ <-]. rewrite Hweb in Hweb'. injection Hweb' as <-.
    rewrite Ha in Ha'. injection Ha' as <-. reflexivity.
  - intros i a logs Hy.
    destruct (get_logs_async_first_success sched h rs i _ Hy)
      as (a' & earlier' & link' & body & _ & _ & _ & _ & Heq & _).
    pose proof (outcome_of_never_empty a' body) as Hne.
    rewrite <- Heq in Hne. exact Hne.
Qed.

(** C5 (amended).  A round whose timestamp the parser rejects makes its
    fetch task raise the parse error [ValueError], and the coordinator
    raises it in turn when it awaits that task, that is, once every task
    created before has returned its pair: it yields outcomes only for
    rounds submitted before that round, in the order of submission, and
    ends with an exception, which is this [ValueError] whenever the rounds
    before have all been yielded; for the round itself and for the rounds
    after it nothing is yielded.  A run of [process_and_write] over such
    rounds ends with an exception as well. *)
Theorem get_logs_async_unparseable sched h rs j a s :
  rs !! j = Some a ->
  timestamp (h a) = TsText s ->
  isoparse_text s = None ->
  fetch_tasks self sched h rs !! j = Some (Finished (Raised ValueError))
  /\ (length (outcomes (get_logs_async self sched h rs)) <= j)%nat
  /\ map fst (outcomes (get_logs_async self sched h rs))
     = take (length (outcomes (get_logs_async self sched h rs))) rs
  /\ (exists e, ending (get_logs_async self sched h rs) = Failed e)
  /\ (length (outcomes (get_logs_async self sched h rs)) = j ->
      ending (get_logs_async self sched h rs) = Failed ValueError)
  /\ ((forall i, (i < j)%nat ->
         exists rd response,
           fetch_tasks self sched h rs !! i = Some (Finished (Returned rd response))) ->
      length (outcomes (get_logs_async self sched h rs)) = j
      /\ ending (get_logs_async self sched h rs) = Failed ValueError)
  /\ (rounds self = rs ->
      forall path, exists e,
        run_ending (process_and_write self sched h path) = Failed e).
Proof.
  intros Hj Hts Hs.
  assert (Hraised : fetch_tasks self sched h rs !! j
                    = Some (Finished (Raised ValueError))).
  { unfold fetch_tasks. eapply isoparse_failure_raises; [eassumption|].
    rewrite Hts. simpl. rewrite Hs. reflexivity. }
  destruct (get_logs_async_prefix sched h rs) as (Hpre & _ & _).
  assert (Hstop : (length (outcomes (get_logs_async self sched h rs)) <= j)%nat
                  /\ exists e, ending (get_logs_async self sched h rs) = Failed e).
  { rewrite get_logs_async_unfold. simpl.
    eapply collect_stops; [apply event_loop_finishes|exact Hraised]. }
  destruct Hstop as [Hle [e He]].
  split; [exact Hraised|]. split; [exact Hle|]. split; [exact Hpre|].
  split; [eauto|]. split; [|split].
  - intros Hlen. rewrite He. f_equal.
    assert (Hfrom : fetch_tasks self sched h rs
                      !! length (outcomes (get_logs_async self sched h rs))
                    = Some (Finished (Raised e))
                    \/ (fetch_tasks self sched h rs
                          !! length (outcomes (get_logs_async self sched h rs))
                        = Some (Finished ReturnedNone)
                        /\ e = TypeError)).
    { revert He. rewrite get_logs_async_unfold. simpl. apply collect_failed. }
    rewrite Hlen, Hraised in Hfrom.
    destruct Hfrom as [H|[H _]]; [|discriminate].
    injection H as <-. reflexivity.
  - intros Hbefore. rewrite get_logs_async_unfold. simpl.
    apply collect_raises; [exact Hraised|exact Hbefore].
  - intros Hrs path.
    assert (Hne : rounds self <> []).
    { rewrite Hrs. intros H0. rewrite H0 in Hj. discriminate. }
    destruct (open_wb (chosen_path self path)) eqn:Hopen.
    + rewrite (process_and_write_given sched h path Hne Hopen). simpl.
      rewrite Hrs. eauto.
    + rewrite (process_and_write_unopened sched h path Hne Hopen). simpl. eauto.
Qed.

(** *** The link resolver *)



(** *** The driver: one outcome at a time *)

(** C6.  For a round whose outcome is absent the driver prints one warning,
    which names the round id and the server, writes nothing to the file,
    and goes on: the rounds after it add to the file and to the status
    channel what they would add on their own. *)
Theorem absent_round_warned h pre a post s :
  file (consume h (pre ++ (a, None) :: post) s)
  = file (consume h pre s)
    +:+ file (consume h post {| file := EmptyString; printed := [] |})
  /\ printed (consume h (pre ++ (a, None) :: post) s)
     = (printed (consume h pre s)
        ++ [Fore_YELLOW +:+ "WARNING:" +:+ Fore_RESET +:+ " Could not find round "
            +:+ str (roundID (h a)) +:+ " on " +:+ server (h a)]
        ++ printed (consume h post {| file := EmptyString; printed := [] |}))%list.
Proof.
  rewrite consume_app. change ((a, None) :: post) with ([(a, None)] ++ post)%list.
  rewrite consume_app. rewrite consume_appends. simpl.
  split; [reflexivity|]. rewrite <- app_assoc. reflexivity.
Qed.


(** C8.  A written line is the server name, a space, the round id in
    decimal, [" | "], the raw line as it is, and a newline; the lines of a
    round are written in this form one after the other. *)
Theorem format_line_bytes_tagged :
  (forall line rd,
      format_line_bytes line rd
      = server rd +:+ " " +:+ str (roundID rd) +:+ " | " +:+ line +:+ String LF EmptyString)
  /\ format_line_bytes "Foo happened" Demo.box42
     = "Box 42 | Foo happened" +:+ String LF EmptyString
  /\ (forall h s a l logs,
         file (handle h s (a, Some (l :: logs)))
         = file s +:+
           String.concat EmptyString
             (map (fun line => format_line_bytes line (h a)) (filter_lines (l :: logs)))).
Proof.
  split; [reflexivity|]. split; [reflexivity|].
  intros h s a l logs. unfold handle. simpl. rewrite write_lines.
  destruct (roundStartSuicide (h a)); reflexivity.
Qed.

(** ** Further properties of the downloader *)

(** *** What a run does to the rounds *)

Lemma step_task_frame h t a :
  t <> Created a -> (step_task self h t).1.1 a = h a.
Proof.
  destruct t as [rd|rd responses pos link|r]; simpl; intros Hne.
  - destruct (isoparse _) as [e|d]; [reflexivity|].
    destruct (next_request self _ rd [] 0%nat) as [t' req]. simpl.
    unfold heap_set. destruct (Nat.eqb_spec a rd) as [->|_]; [congruence|reflexivity].
  - destruct (web link) as [[|] body|]; simpl; try reflexivity.
    destruct (next_request self h rd responses pos) as [t' req]. reflexivity.
  - reflexivity.
Qed.

Lemma step_task_never_created h t a : (step_task self h t).1.2 <> Created a.
Proof.
  destruct t as [rd|rd responses pos link|r]; simpl; [| |discriminate].
  - destruct (isoparse _) as [e|d]; [discriminate|].
    destruct (next_request_cases (heap_set h rd (set_timestamp (h rd) (TsInstant d))) rd [] 0)
      as [(r & -> & _)|(link & -> & _)]; discriminate.
  - destruct (web link) as [[|] body|]; simpl; try discriminate.
    destruct (next_request_cases h rd responses pos)
      as [(r & -> & _)|(link' & -> & _)]; discriminate.
Qed.

Lemma resume_created st i j a :
  tasks (resume self st i) !! j = Some (Created a) -> tasks st !! j = Some (Created a).
Proof.
  intros Ht. destruct (tasks st !! j) as [t0|] eqn:Ht0.
  - destruct (resume_lookup st i j t0 Ht0) as [H|[_ H]]; rewrite H in Ht.
    + exact Ht.
    + injection Ht as Ht. destruct (step_task_never_created _ _ _ Ht).
  - apply lookup_ge_None in Ht0. apply lookup_lt_Some in Ht.
    rewrite resume_length in Ht. lia.
Qed.

Lemma get_logs_async_frame sched h rs a :
  a ∉ rs -> heap_after (get_logs_async self sched h rs) a = h a.
Proof.
  intros Ha. rewrite get_logs_async_unfold. simpl.
  apply (event_loop_invariant (fun st =>
           (forall j b, tasks st !! j = Some (Created b) -> b ∈ rs)
           /\ heap st a = h a)).
  - intros st i [Hc Hh]. split.
    + intros j b Hb. apply (Hc j). apply (resume_created st i). exact Hb.
    + rewrite <- Hh. unfold resume.
      destruct (tasks st !! i) as [t|] eqn:Ht; [|reflexivity].
      pose proof (step_task_frame (heap st) t a) as Hf.
      destruct (step_task self (heap st) t) as [[h' t'] req]. simpl in *.
      apply Hf. intros ->. apply Ha. exact (Hc i a Ht).
  - split; [|reflexivity]. intros j b Hb. simpl in Hb.
    rewrite created_lookup in Hb. destruct (rs !! j) as [c|] eqn:Hj; [|discriminate].
    injection Hb as <-. eapply list_elem_of_lookup_2. exact Hj.
Qed.

Lemma get_logs_async_timestamp sched h rs a :
  timestamp (heap_after (get_logs_async self sched h rs) a) = timestamp (h a)
  \/ exists s d,
       timestamp (h a) = TsText s /\ isoparse_text s = Some d
       /\ timestamp (heap_after (get_logs_async self sched h rs) a) = TsInstant d.
Proof.
  rewrite get_logs_async_unfold. simpl.
  apply (event_loop_invariant (fun st =>
           timestamp (heap st a) = timestamp (h a)
           \/ exists s d, timestamp (h a) = TsText s /\ isoparse_text s = Some d
                          /\ timestamp (heap st a) = TsInstant d)).
  - intros st i Hst.
    destruct (resume_heap st i a) as [->|(s & d & Hs & Hd & ->)]; [exact Hst|].
    destruct Hst as [Heq|(s' & d' & _ & _ & Hinst)]; [|congruence].
    right. exists s, d. rewrite <- Heq. auto.
  - left. reflexivity.
Qed.

(** X1.  A run of the coordinator writes nothing but timestamps: server,
    round id and suicide flag of every object stay as they were, and a
    timestamp is either left alone or replaced, once and for all, by the
    instant that [isoparse] reads from the text it held before the run.  A
    round object that is not among the submitted rounds is not touched at
    all, even when it is one of the configured rounds whose timestamp the
    link generator reads. *)
Theorem get_logs_async_only_normalises sched h rs a :
  server (heap_after (get_logs_async self sched h rs) a) = server (h a)
  /\ roundID (heap_after (get_logs_async self sched h rs) a) = roundID (h a)
  /\ roundStartSuicide (heap_after (get_logs_async self sched h rs) a)
     = roundStartSuicide (h a)
  /\ (timestamp (heap_after (get_logs_async self sched h rs) a) = timestamp (h a)
      \/ exists s d,
           timestamp (h a) = TsText s /\ isoparse_text s = Some d
           /\ timestamp (heap_after (get_logs_async self sched h rs) a) = TsInstant d)
  /\ (a ∉ rs -> heap_after (get_logs_async self sched h rs) a = h a).
Proof.
  destruct (get_logs_async_fields sched h rs a) as (H1 & H2 & H3).
  repeat split; try assumption.
  - apply get_logs_async_timestamp.
  - apply get_logs_async_frame.
Qed.

(** X2.  When the generator has run to its end, every submitted round held
    ISO text before the run and holds the instant parsed from that text
    after it. *)
Theorem completed_run_parsed_every_round sched h rs a :
  ending (get_logs_async self sched h rs) = Completed ->
  a ∈ rs ->
  exists s d,
    timestamp (h a) = TsText s /\ isoparse_text s = Some d
    /\ timestamp (heap_after (get_logs_async self sched h rs) a) = TsInstant d.
Proof.
  intros He Ha.
  destruct (get_logs_async_timestamp sched h rs a) as [Heq|H]; [|exact H].
  exfalso.
  destruct (completed_run_normalises sched h rs a He Ha) as [d Hd].
  rewrite Heq in Hd.
  apply list_elem_of_lookup in Ha. destruct Ha as [j Hj].
  assert (Hraise : isoparse (timestamp (h a)) = inl TypeError)
    by (rewrite Hd; reflexivity).
  pose proof (isoparse_failure_raises sched h rs j a TypeError Hj Hraise) as Ht.
  rewrite get_logs_async_unfold in He. simpl in He.
  destruct (collect_completed_returned _ j _ He Ht) as (rd & response & Hr).
  discriminate.
Qed.

(** *** The requests of a run *)

(** X3.  The task of a round sends at most one request per configured
    round: its request number [k] is for the URL of [self.rounds[k]], so a
    fetch cannot go on for ever; and when the configured rounds have
    pairwise different URLs, a task asks for no URL twice. *)
Theorem fetch_requests_bounded sched h rs i :
  (length (requests_of i (requests (get_logs_async self sched h rs)))
   <= length (rounds self))%nat
  /\ (forall k link,
       requests_of i (requests (get_logs_async self sched h rs)) !! k = Some link ->
       exists b, rounds self !! k = Some b
                 /\ log_link (tgforums_cookie self)
                      (heap_after (get_logs_async self sched h rs) b) = inr link)
  /\ ((forall k k' b b' link,
         rounds self !! k = Some b ->
         rounds self !! k' = Some b' ->
         log_link (tgforums_cookie self)
           (heap_after (get_logs_async self sched h rs) b) = inr link ->
         log_link (tgforums_cookie self)
           (heap_after (get_logs_async self sched h rs) b') = inr link ->
         k = k') ->
      NoDup (requests_of i (requests (get_logs_async self sched h rs)))).
Proof.
  rewrite get_logs_async_unfold. simpl.
  destruct (get_logs_async_requests sched h rs) as [_ Hord].
  set (st := event_loop self sched _) in *.
  split; [|split; [intros k link Hk; exact (Hord i k link Hk)|]].
  - destruct (Nat.le_gt_cases (length (requests_of i (sent st))) (length (rounds self)))
      as [Hle|Hgt]; [exact Hle|exfalso].
    destruct (lookup_lt_is_Some_2 _ _ Hgt) as [link Hk].
    destruct (Hord i _ link Hk) as (b & Hb & _).
    apply lookup_lt_Some in Hb. lia.
  - intros Hdiff. apply NoDup_alt. intros k k' link Hk Hk'.
    destruct (Hord i k link Hk) as (b & Hb & Hl).
    destruct (Hord i k' link Hk') as (b' & Hb' & Hl').
    exact (Hdiff k k' b b' link Hb Hb' Hl Hl').
Qed.

(** X4.  Under every schedule, all the outcomes of one run carry the same
    lines: each task walks the URLs of the configured rounds from the first
    one, so each takes the body of the first URL that the archive serves. *)
Theorem outcomes_share_their_logs sched h rs i j a b logs_a logs_b :
  outcomes (get_logs_async self sched h rs) !! i = Some (a, logs_a) ->
  outcomes (get_logs_async self sched h rs) !! j = Some (b, logs_b) ->
  logs_a = logs_b.
Proof.
  intros Hi Hj.
  destruct (get_logs_async_first_success sched h rs i _ Hi)
    as (a' & e1 & l1 & body1 & _ & _ & Href1 & Hweb1 & Hy1 & Hord1).
  destruct (get_logs_async_first_success sched h rs j _ Hj)
    as (b' & e2 & l2 & body2 & _ & _ & Href2 & Hweb2 & Hy2 & Hord2).
  assert (Hsame : forall k x y,
             (e1 ++ [l1])%list !! k = Some x -> (e2 ++ [l2])%list !! k = Some y -> x = y).
  { intros k x y Hx Hy.
    destruct (Hord1 k x Hx) as (c & Hc & Hlx).
    destruct (Hord2 k y Hy) as (c' & Hc' & Hly).
    rewrite Hc in Hc'. injection Hc' as <-. congruence. }
  assert (Hlast : forall (e : list string) (l : string),
             (e ++ [l])%list !! length e = Some l).
  { intros e l. rewrite lookup_app_r by lia. rewrite Nat.sub_diag. reflexivity. }
  assert (Hnot : forall (l : string) (body : bytes),
             web l = Status true body -> ~ refused l).
  { intros l body Hw [body' Hr]. congruence. }
  assert (Hlen : length e1 = length e2).
  { destruct (Nat.lt_trichotomy (length e1) (length e2)) as [Hlt|[Heq|Hgt]];
      [|exact Heq|]; exfalso.
    - destruct (lookup_lt_is_Some_2 e2 (length e1) Hlt) as [x Hx].
      assert (x = l1).
      { symmetry. apply (Hsame (length e1)); [apply Hlast|].
        rewrite lookup_app_l by exact Hlt. exact Hx. }
      subst x. rewrite Forall_lookup in Href2.
      exact (Hnot _ _ Hweb1 (Href2 _ _ Hx)).
    - destruct (lookup_lt_is_Some_2 e1 (length e2) Hgt) as [x Hx].
      assert (x = l2).
      { apply (Hsame (length e2)); [|apply Hlast].
        rewrite lookup_app_l by exact Hgt. exact Hx. }
      subst x. rewrite Forall_lookup in Href1.
      exact (Hnot _ _ Hweb2 (Href1 _ _ Hx)). }
  assert (Hl : l1 = l2).
  { apply (Hsame (length e1)); [apply Hlast|rewrite Hlen; apply Hlast]. }
  subst l2. rewrite Hweb1 in Hweb2. injection Hweb2 as <-.
  unfold outcome_of in Hy1, Hy2. congruence.
Qed.

(** *** No rounds *)

Lemma event_loop_no_tasks (self0 : LogDownloader) sched h :
  event_loop self0 sched {| heap := h; tasks := []; sent := [] |}
  = {| heap := h; tasks := []; sent := [] |}.
Proof.
  unfold event_loop, drain.
  assert (Hrun : run self0 sched {| heap := h; tasks := []; sent := [] |}
                 = {| heap := h; tasks := []; sent := [] |}).
  { unfold run. induction sched as [|i sched IH]; [reflexivity|]. exact IH. }
  rewrite Hrun. reflexivity.
Qed.

(** *** Lines *)

Lemma concat_cons_nonempty (sep x : string) (xs : list string) :
  xs <> [] -> String.concat sep (x :: xs) = x +:+ sep +:+ String.concat sep xs.
Proof. destruct xs; [contradiction|reflexivity]. Qed.

Lemma split_crlf_two c d b :
  split_crlf (String c (String d b))
  = if Ascii.eqb c CR && Ascii.eqb d LF
    then EmptyString :: split_crlf b
    else match split_crlf (String d b) with
         | piece :: rest => String c piece :: rest
         | [] => [String c EmptyString]
         end.
Proof. reflexivity. Qed.

Lemma split_crlf_cons c b :
  (exists b', b = String LF b' /\ c = CR
              /\ split_crlf (String c b) = EmptyString :: split_crlf b')
  \/ (exists piece rest, split_crlf b = piece :: rest
                         /\ split_crlf (String c b) = String c piece :: rest
                         /\ (c = CR -> forall b', b <> String LF b')).
Proof.
  destruct b as [|d b'].
  - right. exists EmptyString, []. split; [reflexivity|]. split; [reflexivity|].
    intros _ b' H. discriminate.
  - rewrite split_crlf_two.
    destruct (split_crlf (String d b')) as [|piece rest] eqn:Hs;
      [destruct (split_crlf_nonempty _ Hs)|].
    destruct (Ascii.eqb_spec c CR) as [->|Hc];
      [destruct (Ascii.eqb_spec d LF) as [->|Hd]|]; cbn [andb].
    + left. exists b'. auto.
    + right. exists piece, rest. split; [reflexivity|]. split; [reflexivity|].
      intros _ b0 H. congruence.
    + right. exists piece, rest. split; [reflexivity|]. split; [reflexivity|].
      intros H. contradiction.
Qed.

Lemma join_split_crlf_le n : forall b,
  (String.length b <= n)%nat -> join CRLF (split_crlf b) = b.
Proof.
  induction n as [|n IH]; intros b Hlen.
  - destruct b; [reflexivity|simpl in Hlen; lia].
  - destruct b as [|c b]; [reflexivity|]. simpl in Hlen.
    destruct (split_crlf_cons c b) as [(b' & -> & -> & ->)|(piece & rest & Hs & -> & _)].
    + unfold join. rewrite concat_cons_nonempty by apply split_crlf_nonempty.
      fold (join CRLF (split_crlf b')). rewrite IH by (simpl in Hlen; lia).
      reflexivity.
    + assert (Hb : join CRLF (split_crlf b) = b) by (apply IH; lia).
      rewrite Hs in Hb. unfold join in *.
      destruct rest as [|r rest]; simpl in *; [congruence|].
      rewrite append_cons. congruence.
Qed.

Lemma head_of_split_crlf b piece rest c p :
  split_crlf b = piece :: rest -> piece = String c p ->
  exists b', b = String c b'.
Proof.
  intros Hs ->. destruct b as [|d b]; [discriminate|].
  destruct (split_crlf_cons d b) as [(b' & -> & -> & H)|(piece' & rest' & _ & H & _)];
    rewrite H in Hs; [discriminate|].
  inversion Hs; subst. eauto.
Qed.

Lemma contains_cons w c s :
  contains w (String c s) = String.prefix w (String c s) || contains w s.
Proof. reflexivity. Qed.

Lemma prefix_cons a s1 b s2 :
  String.prefix (String a s1) (String b s2)
  = if ascii_dec a b then String.prefix s1 s2 else false.
Proof. reflexivity. Qed.

Lemma prefix_crlf c s :
  String.prefix CRLF (String c s) = true ->
  c = CR /\ exists s', s = String LF s'.
Proof.
  unfold CRLF. rewrite prefix_cons.
  destruct (ascii_dec CR c) as [<-|]; [|discriminate].
  destruct s as [|d s']; [discriminate|]. rewrite prefix_cons.
  destruct (ascii_dec LF d) as [<-|]; [|discriminate].
  eauto.
Qed.

Lemma no_crlf_in_lines_le n : forall b,
  (String.length b <= n)%nat ->
  Forall (fun line => contains CRLF line = false) (split_crlf b).
Proof.
  induction n as [|n IH]; intros b Hlen.
  - destruct b; [repeat constructor|simpl in Hlen; lia].
  - destruct b as [|c b]; [repeat constructor|]. simpl in Hlen.
    destruct (split_crlf_cons c b) as [(b' & -> & -> & ->)|(piece & rest & Hs & -> & Hc)].
    + constructor; [reflexivity|]. apply IH. simpl in Hlen. lia.
    + assert (Hb : Forall (fun line => contains CRLF line = false) (split_crlf b))
        by (apply IH; lia).
      rewrite Hs in Hb. apply Forall_cons in Hb. destruct Hb as [Hp Hrest].
      constructor; [|exact Hrest].
      rewrite contains_cons, Hp, orb_false_r.
      destruct (String.prefix CRLF (String c piece)) eqn:Hpre; [exfalso|reflexivity].
      destruct (prefix_crlf _ _ Hpre) as (-> & p & ->).
      destruct (head_of_split_crlf b _ _ LF p Hs eq_refl) as [b' ->].
      exact (Hc eq_refl b' eq_refl).
Qed.

Lemma outcome_lines_rebuild rd response lines :
  outcome_of rd response = (rd, Some lines) ->
  join CRLF lines = response
  /\ Forall (fun line => contains CRLF line = false) lines.
Proof.
  unfold outcome_of. destruct (truthy response); [|discriminate].
  intros H. injection H as <-. split.
  - apply (join_split_crlf_le (String.length response)). lia.
  - apply (no_crlf_in_lines_le (String.length response)). lia.
Qed.

(** X7.  The lines of an outcome are the body that the archive served for
    the last request of the round's task, cut at every CR LF: joined again
    with CR LF they give that body back byte for byte, and no line has a
    CR LF left in it. *)
Theorem outcome_lines_rebuild_body sched h rs i a lines :
  outcomes (get_logs_async self sched h rs) !! i = Some (a, Some lines) ->
  (exists earlier link,
      requests_of i (requests (get_logs_async self sched h rs)) = (earlier ++ [link])%list
      /\ web link = Status true (join CRLF lines))
  /\ Forall (fun line => contains CRLF line = false) lines.
Proof.
  intros Hy.
  destruct (get_logs_async_first_success sched h rs i _ Hy)
    as (a' & earlier & link & body & _ & Hreqs & _ & Hweb & Heq & _).
  assert (Ha : a' = a) by (unfold outcome_of in Heq; congruence). subst a'.
  destruct (outcome_lines_rebuild a body lines (eq_sym Heq)) as [Hjoin Hno].
  split; [|exact Hno]. exists earlier, link. rewrite Hjoin. auto.
Qed.

(** *** The file as a whole *)

Lemma concat_empty_app (xs ys : list string) :
  String.concat EmptyString (xs ++ ys)
  = String.concat EmptyString xs +:+ String.concat EmptyString ys.
Proof.
  induction xs as [|x xs IH]; [reflexivity|].
  change ((x :: xs) ++ ys)%list with (x :: (xs ++ ys))%list.
  assert (Hc : forall l, String.concat EmptyString (x :: l)
                         = x +:+ String.concat EmptyString l).
  { intros [|y l]; [simpl; rewrite append_empty_r|]; reflexivity. }
  rewrite !Hc, IH, append_assoc. reflexivity.
Qed.

Lemma handle_adds h s y :
  handle h s y
  = {| file := file s +:+ String.concat EmptyString (written_lines h y);
       printed := (printed s ++ messages h y)%list |}.
Proof.
  unfold handle, written_lines, messages. destruct y as [a [[|l logs]|]]; simpl;
    try (unfold print; simpl; rewrite append_empty_r; reflexivity).
  rewrite write_lines.
  destruct (roundStartSuicide (h a)); simpl; rewrite ?app_nil_r; reflexivity.
Qed.

Lemma consume_adds h ys : forall s,
  consume h ys s
  = {| file := file s +:+ String.concat EmptyString (flat_map (written_lines h) ys);
       printed := (printed s ++ flat_map (messages h) ys)%list |}.
Proof.
  unfold consume. induction ys as [|y ys IH]; intros s; simpl.
  - rewrite append_empty_r, app_nil_r. destruct s; reflexivity.
  - rewrite IH, handle_adds. simpl.
    rewrite concat_empty_app, append_assoc, app_assoc. reflexivity.
Qed.

(** X8.  The driver only appends.  The file of a run, once opened, is the
    concatenation, in the order of the outcomes, of the tagged lines that
    [filter_lines] keeps of every outcome that carries lines; the status
    channel holds, in the same order, one warning per absent outcome and
    one notice per flagged round with lines.  Server and round id in the
    tags are those of the rounds as they were submitted.  When the file
    does not open, nothing is written and nothing is printed. *)
Theorem process_and_write_output sched h path :
  rounds self <> [] ->
  file (run_sink (process_and_write self sched h path))
  = (if open_wb (chosen_path self path)
     then String.concat EmptyString
            (flat_map (written_lines h)
               (outcomes (get_logs_async self sched h (rounds self))))
     else EmptyString)
  /\ printed (run_sink (process_and_write self sched h path))
     = (if open_wb (chosen_path self path)
        then flat_map (messages h) (outcomes (get_logs_async self sched h (rounds self)))
        else []).
Proof.
  intros Hne. destruct (open_wb (chosen_path self path)) eqn:Hopen;
    [|rewrite (process_and_write_unopened sched h path Hne Hopen); split; reflexivity].
  rewrite (process_and_write_given sched h path Hne Hopen). simpl.
  rewrite consume_adds. simpl.
  remember (get_logs_async self sched h (rounds self)) as y eqn:Hy.
  assert (Hw : forall o, written_lines (heap_after y) o = written_lines h o).
  { intros [a logs]. unfold written_lines, format_line_bytes. simpl.
    destruct (get_logs_async_fields sched h (rounds self) a) as (Hs & Hi & _).
    rewrite <- Hy in Hs, Hi. rewrite Hs, Hi. reflexivity. }
  assert (Hm : forall o, messages (heap_after y) o = messages h o).
  { intros [a logs]. unfold messages, could_not_find, round_start_suicide. simpl.
    destruct (get_logs_async_fields sched h (rounds self) a) as (Hs & Hi & Hf).
    rewrite <- Hy in Hs, Hi, Hf. rewrite Hs, Hi, Hf. reflexivity. }
  rewrite (flat_map_ext _ _ Hw), (flat_map_ext _ _ Hm).
  split; reflexivity.
Qed.

(** *** The server name in a link *)

Local Abbreviation rename := (replace_from "bagil" "basil" 0).

Lemma replace_from_cons old new c s :
  replace_from old new 0 (String c s)
  = if String.prefix old (String c s)
    then new +:+ replace_from old new (String.length old - 1) s
    else String c (replace_from old new 0 s).
Proof. reflexivity. Qed.

Lemma replace_from_skip old new k c s :
  replace_from old new (S k) (String c s) = replace_from old new k s.
Proof. reflexivity. Qed.

Lemma prefix_append w t : String.prefix w (w +:+ t) = true.
Proof.
  induction w as [|x w IH]; [destruct t; reflexivity|].
  rewrite append_cons, prefix_cons.
  destruct (ascii_dec x x) as [_|Hne]; [exact IH|destruct (Hne eq_refl)].
Qed.

Lemma prefix_mismatch a s1 b s2 :
  a <> b -> String.prefix (String a s1) (String b s2) = false.
Proof.
  intros Hne. rewrite prefix_cons. destruct (ascii_dec a b); [contradiction|reflexivity].
Qed.

Lemma rename_match t : rename ("bagil" +:+ t) = "basil" +:+ rename t.
Proof.
  pose proof (prefix_append "bagil" t) as Hp.
  change ("bagil" +:+ t) with (String "b" ("agil" +:+ t)) in *.
  rewrite replace_from_cons, Hp.
  change ("agil" +:+ t) with (String "a" (String "g" (String "i" (String "l" t)))).
  change (String.length "bagil" - 1)%nat with 4%nat.
  rewrite !replace_from_skip. reflexivity.
Qed.

Lemma rename_no_match c s :
  String.prefix "bagil" (String c s) = false ->
  rename (String c s) = String c (rename s).
Proof. intros H. rewrite replace_from_cons, H. reflexivity. Qed.

Lemma prefix_split w : forall s,
  String.prefix w s = true -> exists t, s = w +:+ t.
Proof.
  induction w as [|x w IH]; intros s H; [exists s; reflexivity|].
  destruct s as [|c s]; [discriminate|]. rewrite prefix_cons in H.
  destruct (ascii_dec x c) as [<-|]; [|discriminate].
  destruct (IH s H) as [t ->]. exists t. reflexivity.
Qed.

Lemma contains_after_basil t :
  contains "bagil" ("basil" +:+ t) = contains "bagil" t.
Proof.
  change ("basil" +:+ t) with (String "b" (String "a" (String "s" (String "i" (String "l" t))))).
  rewrite !contains_cons.
  rewrite (prefix_mismatch "b" _ "a"), (prefix_mismatch "b" _ "s"),
    (prefix_mismatch "b" _ "i"), (prefix_mismatch "b" _ "l") by discriminate.
  rewrite prefix_cons. destruct (ascii_dec "b" "b") as [_|Hne]; [|destruct (Hne eq_refl)].
  rewrite prefix_cons. destruct (ascii_dec "a" "a") as [_|Hne]; [|destruct (Hne eq_refl)].
  rewrite (prefix_mismatch "g" _ "s") by discriminate. reflexivity.
Qed.

(** A word without the letter [b] that starts the renamed text starts the
    text itself. *)
Lemma prefix_of_rename w : forall s,
  forallb (fun c => negb (Ascii.eqb c "b")) (list_ascii_of_string w) = true ->
  String.prefix w (rename s) = true -> String.prefix w s = true.
Proof.
  induction w as [|x w IH]; intros s Hw H; [destruct s; reflexivity|].
  simpl in Hw. apply andb_prop in Hw. destruct Hw as [Hx Hw].
  destruct s as [|c s]; [discriminate|].
  destruct (String.prefix "bagil" (String c s)) eqn:Hm.
  - destruct (prefix_split _ _ Hm) as [t Ht]. rewrite Ht, rename_match in H.
    change ("basil" +:+ rename t) with (String "b" ("asil" +:+ rename t)) in H.
    rewrite prefix_cons in H.
    destruct (ascii_dec x "b") as [->|]; [discriminate|discriminate].
  - rewrite rename_no_match in H by exact Hm. rewrite prefix_cons in *.
    destruct (ascii_dec x c) as [_|]; [|discriminate]. apply IH; assumption.
Qed.

Lemma rename_no_bagil_le n : forall s,
  (String.length s <= n)%nat -> contains "bagil" (rename s) = false.
Proof.
  induction n as [|n IH]; intros s Hlen.
  - destruct s; [reflexivity|simpl in Hlen; lia].
  - destruct s as [|c s]; [reflexivity|].
    destruct (String.prefix "bagil" (String c s)) eqn:Hm.
    + destruct (prefix_split _ _ Hm) as [t Ht]. rewrite Ht, rename_match.
      rewrite contains_after_basil. apply IH.
      rewrite Ht in Hlen.
      change (String.length ("bagil" +:+ t)) with (5 + String.length t)%nat in Hlen.
      lia.
    + rewrite rename_no_match by exact Hm. rewrite contains_cons.
      rewrite IH by (simpl in Hlen; lia). rewrite orb_false_r.
      destruct (String.prefix "bagil" (String c (rename s))) eqn:Hp; [|reflexivity].
      rewrite prefix_cons in Hp, Hm.
      destruct (ascii_dec "b" c) as [_|]; [|discriminate].
      rewrite (prefix_of_rename "agil" s eq_refl Hp) in Hm. discriminate.
Qed.

Lemma lower_char_idempotent c : lower_char (lower_char c) = lower_char c.
Proof.
  destruct c as [[] [] [] [] [] [] [] []]; reflexivity.
Qed.

Lemma lower_idempotent s : lower (lower s) = lower s.
Proof.
  induction s as [|c s IH]; [reflexivity|].
  simpl. rewrite lower_char_idempotent, IH. reflexivity.
Qed.

Lemma rename_keeps_lower_le n : forall s,
  (String.length s <= n)%nat -> lower s = s -> lower (rename s) = rename s.
Proof.
  induction n as [|n IH]; intros s Hlen Hlow.
  - destruct s; [reflexivity|simpl in Hlen; lia].
  - destruct s as [|c s]; [reflexivity|].
    destruct (String.prefix "bagil" (String c s)) eqn:Hm.
    + destruct (prefix_split _ _ Hm) as [t Ht]. rewrite Ht in *. rewrite rename_match.
      change (lower ("basil" +:+ rename t)) with ("basil" +:+ lower (rename t)).
      change (String.length ("bagil" +:+ t)) with (5 + String.length t)%nat in Hlen.
      rewrite IH; [reflexivity|lia|].
      change (lower ("bagil" +:+ t)) with ("bagil" +:+ lower t) in Hlow.
      apply (String.app_inj "bagil") in Hlow. exact Hlow.
    + rewrite rename_no_match by exact Hm. simpl in Hlow. injection Hlow as Hc Hs.
      simpl. rewrite Hc, IH; [reflexivity|simpl in Hlen; lia|exact Hs].
Qed.

Lemma fmt_02d_two_digits n :
  0 <= n < 100 -> String.length (fmt_02d n) = 2%nat.
Proof.
  intros Hn.
  assert (Hall : forallb (fun k => Nat.eqb (String.length (fmt_02d (Z.of_nat k))) 2)
                   (seq 0 100) = true) by (vm_compute; reflexivity).
  rewrite forallb_forall in Hall.
  specialize (Hall (Z.to_nat n)). rewrite Z2Nat.id in Hall by lia.
  apply Nat.eqb_eq, Hall, in_seq. lia.
Qed.

(** X13.  In the URL of a round whose timestamp is an instant with a
    calendar month and day, the server argument is in lower case and has no
    [bagil] left in it, whatever the letter case of the server name was,
    and the month and the day arguments have exactly two characters. *)
Theorem log_link_arguments cookie rnd d :
  timestamp rnd = TsInstant d ->
  1 <= month d <= 12 ->
  1 <= day d <= 31 ->
  exists args,
    log_link cookie rnd
    = inr ((if truthy cookie then GAME_TXT_ADMIN_URL else GAME_TXT_URL) args)
    /\ lower (arg_server args) = arg_server args
    /\ contains "bagil" (arg_server args) = false
    /\ String.length (arg_month args) = 2%nat
    /\ String.length (arg_day args) = 2%nat
    /\ arg_round_id args = roundID rnd.
Proof.
  intros Hd Hm Hday. unfold log_link. rewrite Hd. eexists. split; [reflexivity|].
  simpl. unfold replace. repeat split.
  - apply (rename_keeps_lower_le (String.length (lower (server rnd)))); [lia|].
    apply lower_idempotent.
  - apply (rename_no_bagil_le (String.length (lower (server rnd)))). lia.
  - apply fmt_02d_two_digits. lia.
  - apply fmt_02d_two_digits. lia.
Qed.

(** *** The run that asyncio makes *)

Lemma first_success_drop links k :
  Forall refused (take k links) -> first_success links = first_success (drop k links).
Proof.
  revert k. induction links as [|l links IH]; intros [|k] H; try reflexivity.
  simpl in *. apply Forall_cons in H. destruct H as [[body Hl] H].
  rewrite Hl. apply IH. exact H.
Qed.

Lemma first_success_at links k link :
  links !! k = Some link -> Forall refused (take k links) ->
  first_success links
  = match web link with
    | Status true body => Found body
    | Status false _ => first_success (drop (S k) links)
    | ConnectionFailed => Broken
    end.
Proof.
  intros Hk Href. rewrite (first_success_drop links k Href).
  rewrite (drop_S _ _ _ Hk). reflexivity.
Qed.

Lemma links_from_lookup cookie h rs links :
  links_from cookie h rs = inr links ->
  length links = length rs
  /\ forall k a, rs !! k = Some a ->
       exists l, links !! k = Some l /\ log_link cookie (h a) = inr l.
Proof.
  revert links. induction rs as [|a rs IH]; intros links H; simpl in H.
  - injection H as <-. split; [reflexivity|]. intros k a Hk. discriminate.
  - destruct (log_link cookie (h a)) as [e|l] eqn:Hl; [discriminate|].
    destruct (links_from cookie h rs) as [e|ls]; [discriminate|].
    injection H as <-. destruct (IH ls eq_refl) as [Hlen Hk].
    split; [simpl; f_equal; exact Hlen|].
    intros [|k] b Hb; simpl in *.
    + injection Hb as <-. exists l. auto.
    + apply Hk. exact Hb.
Qed.

Lemma run_app sched1 sched2 st :
  run self (sched1 ++ sched2) st = run self sched2 (run self sched1 st).
Proof. unfold run. apply fold_left_app. Qed.

Lemma normalise_parsed h a d :
  isoparse (timestamp (h a)) = inr d ->
  normalise h a = set_timestamp (h a) (TsInstant d).
Proof. intros H. unfold normalise. rewrite H. reflexivity. Qed.

Lemma parses_inr h a : parses h a = true -> exists d, isoparse (timestamp (h a)) = inr d.
Proof. unfold parses. destruct (isoparse _) as [e|d]; [discriminate|eauto]. Qed.

(** The tasks started one after the other, in the order of creation:
    each normalises its own round and asks for the URL of the first
    configured round. *)
Lemma started_in_order h links link0 k :
  NoDup (rounds self) ->
  forallb (parses h) (rounds self) = true ->
  get_log_links self (normalise h) = inr links ->
  links !! 0%nat = Some link0 ->
  (k <= length (rounds self))%nat ->
  (forall j a, rounds self !! j = Some a ->
     tasks (run self (seq 0 k) {| heap := h; tasks := map Created (rounds self); sent := [] |}) !! j
     = Some (if (j <? k)%nat then Awaiting a [] 1 link0 else Created a))
  /\ (forall j a, rounds self !! j = Some a ->
        heap (run self (seq 0 k) {| heap := h; tasks := map Created (rounds self); sent := [] |}) a
        = if (j <? k)%nat then normalise h a else h a).
Proof.
  intros Hnd Hparse Hlinks Hl0.
  destruct (links_from_lookup _ _ _ _ Hlinks) as [Hlen Hlk].
  rewrite forallb_forall in Hparse.
  induction k as [|k IH]; intros Hk.
  - split; intros j a Hj; simpl; [|reflexivity].
    rewrite created_lookup, Hj. reflexivity.
  - destruct IH as [IHt IHh]; [lia|].
    rewrite seq_S, run_app. simpl.
    set (st := run self (seq 0 k) _) in *.
    destruct (lookup_lt_is_Some_2 (rounds self) k) as [ak Hak]; [lia|].
    pose proof (IHt k ak Hak) as Htk. rewrite Nat.ltb_irrefl in Htk.
    pose proof (IHh k ak Hak) as Hhk. rewrite Nat.ltb_irrefl in Hhk.
    destruct (parses_inr h ak) as [d Hd].
    { apply Hparse. apply list_elem_of_In. eapply list_elem_of_lookup_2. exact Hak. }
    destruct (lookup_lt_is_Some_2 (rounds self) 0) as [a0 Ha0]; [lia|].
    destruct (Hlk 0%nat a0 Ha0) as (l & Hl & Hlink0).
    rewrite Hl0 in Hl. injection Hl as <-.
    set (h' := heap_set (heap st) ak (set_timestamp (heap st ak) (TsInstant d))).
    assert (Hnew : h' ak = normalise h ak).
    { unfold h', heap_set. rewrite Nat.eqb_refl, Hhk.
      symmetry. apply normalise_parsed. exact Hd. }
    assert (Hold : forall j a, rounds self !! j = Some a -> j <> k -> h' a = heap st a).
    { intros j a Hj Hjk. unfold h', heap_set.
      destruct (Nat.eqb_spec a ak) as [->|_]; [|reflexivity].
      destruct (Hjk (NoDup_lookup _ _ _ _ Hnd Hj Hak)). }
    assert (Hh0 : h' a0 = normalise h a0).
    { destruct (decide (k = 0%nat)) as [->|Hk0].
      - rewrite Ha0 in Hak. injection Hak as <-. exact Hnew.
      - rewrite (Hold 0%nat a0 Ha0) by auto. rewrite (IHh 0%nat a0 Ha0).
        destruct (Nat.ltb_spec 0 k); [reflexivity|lia]. }
    assert (Hres : resume self st k
                   = {| heap := h';
                        tasks := <[k := Awaiting ak [] 1 link0]> (tasks st);
                        sent := (sent st ++ [(k, link0)])%list |}).
    { unfold resume. rewrite Htk. simpl. rewrite Hhk, Hd. fold h'.
      replace (heap_set (heap st) ak (set_timestamp (h ak) (TsInstant d))) with h'
        by (unfold h'; rewrite Hhk; reflexivity).
      unfold next_request, next_link. rewrite Ha0, Hh0, Hlink0. reflexivity. }
    rewrite Hres. simpl. split; intros j a Hj.
    + destruct (decide (j = k)) as [->|Hjk].
      * rewrite Hak in Hj. injection Hj as <-.
        rewrite list_lookup_insert_eq by (eapply lookup_lt_Some; exact Htk).
        destruct (Nat.ltb_spec k (S k)); [reflexivity|lia].
      * rewrite list_lookup_insert_ne by auto. rewrite (IHt j a Hj).
        destruct (Nat.ltb_spec j k), (Nat.ltb_spec j (S k)); try reflexivity; lia.
    + destruct (decide (j = k)) as [->|Hjk].
      * rewrite Hak in Hj. injection Hj as <-. rewrite Hnew.
        destruct (Nat.ltb_spec k (S k)); [reflexivity|lia].
      * rewrite (Hold j a Hj Hjk), (IHh j a Hj).
        destruct (Nat.ltb_spec j k), (Nat.ltb_spec j (S k)); try reflexivity; lia.
Qed.

Lemma step_on_course h0 links a t :
  length links = length (rounds self) ->
  (forall k b, rounds self !! k = Some b ->
     exists l, links !! k = Some l /\ log_link (tgforums_cookie self) (h0 b) = inr l) ->
  on_course links a t ->
  on_course links a (step_task self h0 t).1.2.
Proof.
  intros Hlen Hlk Hon.
  destruct t as [rd|rd responses pos link|r]; simpl in *; [destruct Hon| |exact Hon].
  destruct Hon as (-> & -> & k & -> & Hk & Href).
  pose proof (first_success_at links k link Hk Href) as Hfs.
  destruct (web link) as [[|] body|] eqn:Hweb; simpl;
    [rewrite Hfs; reflexivity| |rewrite Hfs; reflexivity].
  assert (Href' : Forall refused (take (S k) links)).
  { rewrite (take_S_r _ _ _ Hk). apply Forall_app. split; [exact Href|].
    constructor; [exists body; exact Hweb|constructor]. }
  unfold next_request, next_link.
  destruct (rounds self !! S k) as [b|] eqn:Hb.
  - destruct (Hlk (S k) b Hb) as (l & Hl & ->). simpl.
    split; [reflexivity|]. split; [reflexivity|]. exists (S k). auto.
  - simpl. rewrite Hfs. apply lookup_ge_None in Hb.
    rewrite drop_ge by lia. reflexivity.
Qed.

Lemma collect_found body rs :
  collect (map (fun a => Finished (Returned a body)) rs)
  = (map (fun a => outcome_of a body) rs, Completed).
Proof.
  induction rs as [|a rs IH]; [reflexivity|]. simpl. rewrite IH. reflexivity.
Qed.

(** Started in the order of creation, every task ends with the result of
    one and the same search through the URLs of the configured rounds. *)
Lemma creation_order_tasks sched h links :
  NoDup (rounds self) ->
  forallb (parses h) (rounds self) = true ->
  get_log_links self (normalise h) = inr links ->
  tasks (event_loop self (seq 0 (length (rounds self)) ++ sched)
           {| heap := h; tasks := map Created (rounds self); sent := [] |})
  = map (fun a => Finished (search_result a (first_success links))) (rounds self)
  /\ forall a, a ∈ rounds self ->
       heap (event_loop self (seq 0 (length (rounds self)) ++ sched)
               {| heap := h; tasks := map Created (rounds self); sent := [] |}) a
       = normalise h a.
Proof.
  intros Hnd Hparse Hlinks.
  destruct (links_from_lookup _ _ _ _ Hlinks) as [Hlen Hlk].
  destruct (rounds self) as [|a0 rs0] eqn:Hrs.
  { split; [|intros a Ha; apply elem_of_nil in Ha; destruct Ha].
    simpl. rewrite event_loop_no_tasks. reflexivity. }
  rewrite <- Hrs in *.
  assert (Ha0 : rounds self !! 0%nat = Some a0) by (rewrite Hrs; reflexivity).
  destruct (Hlk 0%nat a0 Ha0) as (link0 & Hl0 & _).
  set (st0 := {| heap := h; tasks := map Created (rounds self); sent := [] |}).
  unfold event_loop. rewrite run_app. fold (event_loop self sched (run self (seq 0 (length (rounds self))) st0)).
  destruct (started_in_order h links link0 (length (rounds self)) Hnd Hparse Hlinks Hl0
              (Nat.le_refl _)) as [Ht1 Hh1].
  fold st0 in Ht1, Hh1.
  set (st1 := run self (seq 0 (length (rounds self))) st0) in *.
  assert (Hinv : (forall j a, rounds self !! j = Some a ->
                    heap (event_loop self sched st1) a = normalise h a)
                 /\ (forall j a t, rounds self !! j = Some a ->
                       tasks (event_loop self sched st1) !! j = Some t ->
                       on_course links a t)).
  { apply (event_loop_invariant (fun st =>
             (forall j a, rounds self !! j = Some a -> heap st a = normalise h a)
             /\ (forall j a t, rounds self !! j = Some a ->
                   tasks st !! j = Some t -> on_course links a t))).
    - intros st i [Hh Ht]. split.
      + intros j a Hj. rewrite <- (Hh j a Hj).
        destruct (resume_heap st i a) as [->|(s & d & Hs & _)]; [reflexivity|].
        destruct (Hlk j a Hj) as (l & _ & Hl). rewrite <- (Hh j a Hj) in Hl.
        destruct (log_link_instant _ _ _ Hl) as [d' Hd']. congruence.
      + intros j a t Hj Htj.
        destruct (tasks st !! j) as [t0|] eqn:Ht0.
        * destruct (resume_lookup st i j t0 Ht0) as [H|[_ H]];
            rewrite H in Htj; injection Htj as <-.
          -- exact (Ht j a t0 Hj Ht0).
          -- apply step_on_course; [exact Hlen| |exact (Ht j a t0 Hj Ht0)].
             intros k b Hb. destruct (Hlk k b Hb) as (l & Hl & Hll).
             exists l. rewrite (Hh k b Hb). auto.
        * apply lookup_ge_None in Ht0. apply lookup_lt_Some in Htj.
          rewrite resume_length in Htj. lia.
    - split.
      + intros j a Hj. rewrite (Hh1 j a Hj).
        apply lookup_lt_Some in Hj. destruct (Nat.ltb_spec j (length (rounds self)));
          [reflexivity|lia].
      + intros j a t Hj Htj. rewrite (Ht1 j a Hj) in Htj.
        pose proof (lookup_lt_Some _ _ _ Hj) as Hlt.
        destruct (Nat.ltb_spec j (length (rounds self))); [|lia].
        injection Htj as <-. simpl. split; [reflexivity|]. split; [reflexivity|].
        exists 0%nat. split; [reflexivity|]. split; [exact Hl0|constructor]. }
  destruct Hinv as [Hheap Hcourse]. split.
  - apply list_eq. intros j.
    change (map (fun a => Finished (search_result a (first_success links))) (rounds self))
      with ((fun a => Finished (search_result a (first_success links))) <$> rounds self).
    rewrite list_lookup_fmap.
    destruct (rounds self !! j) as [a|] eqn:Hj; simpl.
    + assert (Hlt : (j < length (tasks (event_loop self sched st1)))%nat).
      { rewrite event_loop_length. unfold st1. rewrite run_length. simpl.
        rewrite length_map. eapply lookup_lt_Some. exact Hj. }
      destruct (lookup_lt_is_Some_2 _ _ Hlt) as [t Ht]. rewrite Ht.
      pose proof (event_loop_finishes sched st1) as Hfin.
      rewrite Forall_lookup in Hfin. specialize (Hfin j t Ht).
      pose proof (Hcourse j a t Hj Ht) as Hon.
      destruct t as [| |r]; try contradiction. simpl in Hon. rewrite Hon. reflexivity.
    + apply lookup_ge_None. rewrite event_loop_length. unfold st1.
      rewrite run_length. simpl. rewrite length_map.
      apply lookup_ge_None. exact Hj.
  - intros a Ha. apply list_elem_of_lookup in Ha. destruct Ha as [j Hj].
    exact (Hheap j a Hj).
Qed.

(** X5.  The run that asyncio makes for [process_and_write]: the
    submitted rounds are the configured rounds, all different, all with a
    timestamp that parses, and the tasks are started in the order of their
    creation before any reply is handled.  Then the order of the replies
    does not matter.  Every task tries the URLs of all configured rounds
    from the first one: when the first URL that is not refused is served,
    every round is yielded with the lines of that one body; when all are
    refused the generator yields nothing and raises [TypeError]; when a
    request fails before a success it yields nothing and raises the
    client's exception.  Afterwards every configured round holds its
    instant. *)
Theorem get_logs_async_in_creation_order sched h links :
  rounds self <> [] ->
  NoDup (rounds self) ->
  forallb (parses h) (rounds self) = true ->
  get_log_links self (normalise h) = inr links ->
  (outcomes (get_logs_async self (seq 0 (length (rounds self)) ++ sched) h (rounds self)),
   ending (get_logs_async self (seq 0 (length (rounds self)) ++ sched) h (rounds self)))
  = match first_success links with
    | Found body => (map (fun a => outcome_of a body) (rounds self), Completed)
    | Exhausted => ([], Failed TypeError)
    | Broken => ([], Failed ClientError)
    end
  /\ forall a, a ∈ rounds self ->
       heap_after (get_logs_async self (seq 0 (length (rounds self)) ++ sched) h (rounds self)) a
       = normalise h a.
Proof.
  intros Hne Hnd Hparse Hlinks.
  destruct (creation_order_tasks sched h links Hnd Hparse Hlinks) as [Htasks Hheap].
  rewrite get_logs_async_unfold. cbn [heap_after outcomes ending].
  split; [|exact Hheap].
  rewrite Htasks. destruct (rounds self) as [|a0 rs0]; [contradiction|].
  destruct (first_success links) as [body| |]; simpl.
  - rewrite collect_found. reflexivity.
  - reflexivity.
  - reflexivity.
Qed.

Lemma collect_search a0 rs0 links :
  collect (map (fun a => Finished (search_result a (first_success links))) (a0 :: rs0))
  = match first_success links with
    | Found body => (map (fun a => outcome_of a body) (a0 :: rs0), Completed)
    | Exhausted => ([], Failed TypeError)
    | Broken => ([], Failed ClientError)
    end.
Proof.
  destruct (first_success links) as [body| |]; [|reflexivity|reflexivity].
  apply collect_found.
Qed.

(** X6.  The file of the run that asyncio makes, when the output file
    opens and the first URL that is not refused is served with a body that
    is not empty: for every configured round, in order, the kept lines of
    that one body, tagged with the round's own server and id.  The run ends
    well and prints only the notices of the flagged rounds. *)
Theorem process_and_write_in_creation_order sched h path links body :
  rounds self <> [] ->
  open_wb (chosen_path self path) = true ->
  NoDup (rounds self) ->
  forallb (parses h) (rounds self) = true ->
  get_log_links self (normalise h) = inr links ->
  first_success links = Found body ->
  body <> EmptyString ->
  run_ending (process_and_write self (seq 0 (length (rounds self)) ++ sched) h path)
  = Completed
  /\ file (run_sink (process_and_write self (seq 0 (length (rounds self)) ++ sched) h path))
     = String.concat EmptyString
         (flat_map (fun a => map (fun line => format_line_bytes line (h a))
                               (filter_lines (split_crlf body)))
            (rounds self))
  /\ printed (run_sink (process_and_write self (seq 0 (length (rounds self)) ++ sched) h path))
     = flat_map (fun a => if roundStartSuicide (h a)
                          then [round_start_suicide (h a)] else [])
         (rounds self).
Proof.
  intros Hne Hopen Hnd Hparse Hlinks Hfound Hbody.
  destruct (creation_order_tasks sched h links Hnd Hparse Hlinks) as [Htasks _].
  rewrite (process_and_write_given _ h path Hne Hopen). cbn [run_ending run_sink].
  rewrite consume_adds. cbn [file printed].
  set (y := get_logs_async self (seq 0 (length (rounds self)) ++ sched) h (rounds self)).
  assert (Hfields : forall a,
             server (heap_after y a) = server (h a)
             /\ roundID (heap_after y a) = roundID (h a)
             /\ roundStartSuicide (heap_after y a) = roundStartSuicide (h a)).
  { intros a. apply get_logs_async_fields. }
  assert (Hy : outcomes y = map (fun a => outcome_of a body) (rounds self)
               /\ ending y = Completed).
  { unfold y. rewrite get_logs_async_unfold. cbn [outcomes ending].
    rewrite Htasks. destruct (rounds self) as [|a0 rs0]; [contradiction|].
    rewrite collect_search, Hfound. split; reflexivity. }
  destruct Hy as [Hout Hend]. rewrite Hout, Hend. split; [reflexivity|].
  assert (Htruthy : truthy body = true) by (destruct body; [contradiction|reflexivity]).
  assert (Hw : forall a,
             written_lines (heap_after y) (outcome_of a body)
             = map (fun line => format_line_bytes line (h a)) (filter_lines (split_crlf body))).
  { intros a. unfold written_lines, outcome_of, format_line_bytes. rewrite Htruthy.
    cbn [fst snd]. destruct (Hfields a) as (Hs & Hi & _). rewrite Hs, Hi.
    destruct (split_crlf body) as [|l ls] eqn:Hsplit;
      [destruct (split_crlf_nonempty _ Hsplit)|reflexivity]. }
  assert (Hm : forall a,
             messages (heap_after y) (outcome_of a body)
             = if roundStartSuicide (h a) then [round_start_suicide (h a)] else []).
  { intros a. unfold messages, outcome_of, round_start_suicide. rewrite Htruthy.
    cbn [fst snd]. destruct (Hfields a) as (Hs & Hi & Hf). rewrite Hs, Hi, Hf.
    destruct (split_crlf body) as [|l ls] eqn:Hsplit;
      [destruct (split_crlf_nonempty _ Hsplit)|reflexivity]. }
  rewrite !flat_map_concat_map, !map_map.
  rewrite (map_ext _ _ Hw), (map_ext _ _ Hm). split; reflexivity.
Qed.

(** *** The resolver's exception *)

Lemma log_link_cases cookie rnd :
  match log_link cookie rnd with
  | inl e => e = AttributeError /\ is_instant (timestamp rnd) = false
  | inr _ => is_instant (timestamp rnd) = true
  end.
Proof. unfold log_link. destruct (timestamp rnd); simpl; auto. Qed.

(** X12.  Iterating the link resolver to its end raises exactly when some
    configured round still holds its timestamp as text, and what it raises
    is then [AttributeError]. *)
Theorem get_log_links_raises h :
  (get_log_links self h = inl AttributeError
   <-> forallb (fun a => is_instant (timestamp (h a))) (rounds self) = false)
  /\ forall e, get_log_links self h = inl e -> e = AttributeError.
Proof.
  unfold get_log_links. generalize (tgforums_cookie self) as cookie. intros cookie.
  induction (rounds self) as [|a rs [IH1 IH2]]; simpl.
  - split; [split; discriminate|discriminate].
  - pose proof (log_link_cases cookie (h a)) as Hc.
    destruct (log_link cookie (h a)) as [e|l].
    + destruct Hc as [-> ->]. simpl.
      split; [split; reflexivity|]. intros e H. congruence.
    + rewrite Hc. simpl. destruct (links_from cookie h rs) as [e|links].
      * rewrite (IH2 e eq_refl) in *. split; [exact IH1|]. intros e' H. congruence.
      * split; [|discriminate]. split; [discriminate|].
        intros H. apply IH1 in H. discriminate.
Qed.

(** *** The end of the file *)

Lemma format_line_bytes_ends line rd :
  exists pre, format_line_bytes line rd = pre +:+ NL.
Proof.
  unfold format_line_bytes.
  exists (server rd +:+ " " +:+ str (roundID rd) +:+ " | " +:+ line).
  rewrite !append_assoc. reflexivity.
Qed.

Lemma concat_ends (ls : list string) :
  Forall (fun l => exists pre, l = pre +:+ NL) ls ->
  String.concat EmptyString ls = EmptyString
  \/ exists pre, String.concat EmptyString ls = pre +:+ NL.
Proof.
  induction 1 as [|l ls [pre ->] _ IH]; [left; reflexivity|].
  right. change (_ :: ls) with ([pre +:+ NL] ++ ls)%list. rewrite concat_empty_app.
  change (String.concat EmptyString [pre +:+ NL]) with (pre +:+ NL).
  destruct IH as [->|[pre' ->]].
  - exists pre. rewrite append_empty_r. reflexivity.
  - exists ((pre +:+ NL) +:+ pre'). rewrite !append_assoc. reflexivity.
Qed.

(** X9.  Whatever the archive served and the filter kept, and also when
    the run broke off with an exception, the file is empty or ends with a
    newline: lines are only ever written whole. *)
Theorem written_file_ends_with_newline sched h path :
  rounds self <> [] ->
  file (run_sink (process_and_write self sched h path)) = EmptyString
  \/ exists pre, file (run_sink (process_and_write self sched h path)) = pre +:+ NL.
Proof.
  intros Hne. destruct (open_wb (chosen_path self path)) eqn:Hopen;
    [|rewrite (process_and_write_unopened sched h path Hne Hopen); left; reflexivity].
  rewrite (process_and_write_given sched h path Hne Hopen). cbn [run_sink].
  rewrite consume_adds. cbn [file]. rewrite append_empty_l.
  apply concat_ends. apply Forall_forall. intros l Hl.
  apply list_elem_of_In, in_flat_map in Hl. destruct Hl as (y & _ & Hl).
  unfold written_lines in Hl. destruct (snd y) as [[|l0 logs]|]; try destruct Hl.
  apply in_map_iff in Hl. destruct Hl as (line & <- & _).
  apply format_line_bytes_ends.
Qed.

(** *** Running the pipeline again, and again *)


End Properties.

(** ** Logging in *)

Section AuthenticationFacts.

Variable World : Type.

(** X14.  [authenticate_interactive] reads the answer without regard to
    letter case: two answers that differ only in case are treated alike.
    Unless the answer is one of y, yes, true, 1 it returns [False] and does
    not call [authenticate]; and with the [authenticate] of the base class
    it never returns [True]. *)
Theorem authenticate_interactive_answer
  (auth : World -> World * option bool) (answer other : string) (w : World) :
  (lower answer = lower other ->
   authenticate_interactive World auth answer w
   = authenticate_interactive World auth other w)
  /\ (authenticate_interactive World auth (lower answer) w
      = authenticate_interactive World auth answer w)
  /\ (~ In (lower answer) ["y"; "yes"; "true"; "1"] ->
      authenticate_interactive World auth answer w = (w, Some false))
  /\ snd (authenticate_interactive World (authenticate World) answer w) <> Some true.
Proof.
  unfold authenticate_interactive. repeat split.
  - intros ->. reflexivity.
  - rewrite lower_idempotent. reflexivity.
  - intros Hno.
    destruct (existsb (String.eqb (lower answer)) ["y"; "yes"; "true"; "1"]) eqn:He;
      [|reflexivity].
    apply existsb_exists in He. destruct He as (x & Hx & Heq).
    apply String.eqb_eq in Heq. subst x. contradiction.
  - destruct (existsb _ _); simpl; discriminate.
Qed.

End AuthenticationFacts.

(** ** CentCom ban records *)

Module CentComFacts.

Import CentCom.

Lemma json_induction (P : json -> Prop) :
  P JNull ->
  (forall b, P (JBool b)) ->
  (forall n, P (JInt n)) ->
  (forall literal, P (JFloat literal)) ->
  (forall s, P (JString s)) ->
  (forall items, Forall P items -> P (JArray items)) ->
  (forall members, Forall (fun m => P (snd m)) members -> P (JObject members)) ->
  forall j, P j.
Proof.
  intros Hnull Hbool Hint Hfloat Hstr Harr Hobj.
  fix IH 1. intros [ |b|n|literal|s|items|members].
  - exact Hnull.
  - apply Hbool.
  - apply Hint.
  - apply Hfloat.
  - apply Hstr.
  - apply Harr.
    exact ((fix go (l : list json) : Forall P l :=
              match l with
              | [] => List.Forall_nil P
              | x :: l' => @List.Forall_cons _ P x l' (IH x) (go l')
              end) items).
  - apply Hobj.
    exact ((fix go (l : list (string * json)) : Forall (fun m => P (snd m)) l :=
              match l with
              | [] => List.Forall_nil _
              | m :: l' => @List.Forall_cons _ (fun m => P (snd m)) m l' (IH (snd m)) (go l')
              end) members).
Qed.

Lemma decode_all_items items :
  Forall decodes_well items ->
  match decode_all decode items with
  | inl e => e = TypeError /\ existsb has_foreign_key items = true
  | inr vs => existsb has_foreign_key items = false
  end.
Proof.
  induction 1 as [|x items Hx _ IH]; [reflexivity|].
  unfold decodes_well in Hx. cbn [decode_all existsb].
  destruct (decode x) as [e|v].
  - destruct Hx as [-> ->]. auto.
  - rewrite Hx. simpl. fold (decode_all decode items).
    destruct (decode_all decode items) as [e|vs]; exact IH.
Qed.

Lemma decode_all_members members :
  Forall (fun m => decodes_well (snd m)) members ->
  match decode_all decode_member members with
  | inl e => e = TypeError /\ existsb (fun m => has_foreign_key (snd m)) members = true
  | inr d => map fst d = map fst members
             /\ existsb (fun m => has_foreign_key (snd m)) members = false
  end.
Proof.
  induction 1 as [|[k x] members Hx _ IH]; [split; reflexivity|].
  unfold decodes_well in Hx. cbn [decode_all existsb decode_member snd] in *.
  destruct (decode x) as [e|v].
  - destruct Hx as [-> ->]. auto.
  - rewrite Hx. simpl. fold (decode_all decode_member members).
    destruct (decode_all decode_member members) as [e|d]; [exact IH|].
    destruct IH as [Hk Hf]. split; [simpl; f_equal; exact Hk|exact Hf].
Qed.

Lemma decode_object members :
  decode (JObject members)
  = match decode_all decode_member members with
    | inl e => inl e
    | inr d => BanData d
    end.
Proof. reflexivity. Qed.

Lemma decode_array items :
  decode (JArray items)
  = match decode_all decode items with
    | inl e => inl e
    | inr vs => inr (VList vs)
    end.
Proof. reflexivity. Qed.

Lemma has_foreign_key_object members :
  has_foreign_key (JObject members)
  = negb (forallb is_field (map fst members))
    || existsb (fun m => has_foreign_key (snd m)) members.
Proof.
  cbn [has_foreign_key]. induction members as [|[k x] members IH]; [reflexivity|].
  cbn [existsb map forallb fst snd]. rewrite IH. unfold is_field.
  destruct (field_of_name k); simpl.
  - destruct (has_foreign_key x), (forallb _ _); reflexivity.
  - reflexivity.
Qed.

Lemma BanData_keys d :
  BanData d
  = if forallb is_field (map fst d)
    then inr (VBanData (fun f => match dict_get (field_name f) d with
                                | Some v => v
                                | None => default f
                                end))
    else inl TypeError.
Proof.
  unfold BanData. replace (forallb is_field (map fst d))
    with (forallb (fun kv : string * value =>
                     match field_of_name (fst kv) with
                     | Some _ => true
                     | None => false
                     end) d); [reflexivity|].
  induction d as [|kv d IH]; [reflexivity|]. simpl. rewrite IH. reflexivity.
Qed.

Lemma decode_decodes_well j : decodes_well j.
Proof.
  induction j as [ |b|n|literal|s|items IH|members IH] using json_induction;
    try reflexivity; unfold decodes_well.
  - rewrite decode_array. pose proof (decode_all_items items IH) as H.
    destruct (decode_all decode items) as [e|vs]; exact H.
  - rewrite decode_object, has_foreign_key_object.
    pose proof (decode_all_members members IH) as H.
    destruct (decode_all decode_member members) as [e|d].
    + destruct H as [-> ->]. split; [reflexivity|apply orb_true_r].
    + destruct H as [Hk ->]. rewrite BanData_keys, Hk, orb_false_r.
      destruct (forallb is_field (map fst members)); [reflexivity|split; reflexivity].
Qed.

(** X15.  A document in which some object, at any depth, has a key that
    is not the name of a [BanData] field is never decoded:
    [from_json_string] and [from_response] raise on it and return no
    value.  So a value that comes back was built from objects whose every
    key names a field. *)
Theorem decode_fails_on_foreign_key (document : json) :
  has_foreign_key document = true ->
  (exists e, from_json_string document = inl e)
  /\ (exists e, from_response document = inl e).
Proof.
  intros Hkey.
  pose proof (decode_decodes_well document) as H. unfold decodes_well in H.
  unfold from_json_string, from_response.
  destruct (decode document) as [e|v].
  - split; exists e; reflexivity.
  - rewrite Hkey in H. discriminate.
Qed.

Lemma decode_all_dict members d k :
  decode_all decode_member members = inr d ->
  match dict_get k members with
  | Some j' => exists v, decode j' = inr v /\ dict_get k d = Some v
  | None => dict_get k d = None
  end.
Proof.
  revert d. induction members as [|[k' x] members IH]; intros d H.
  - injection H as <-. reflexivity.
  - cbn [decode_all decode_member] in H.
    destruct (decode x) as [e|v] eqn:Hx; [discriminate|].
    fold (decode_all decode_member members) in H.
    destruct (decode_all decode_member members) as [e|d'] eqn:Hd; [discriminate|].
    injection H as <-. specialize (IH d' eq_refl). cbn [dict_get].
    destruct (dict_get k members) as [j'|].
    + destruct IH as (v' & Hv' & ->). eauto.
    + rewrite IH. destruct (String.eqb k' k); eauto.
Qed.

Lemma decode_all_lookup items vs :
  decode_all decode items = inr vs ->
  length vs = length items
  /\ forall i j', items !! i = Some j' ->
       exists v, vs !! i = Some v /\ decode j' = inr v.
Proof.
  revert vs. induction items as [|x items IH]; intros vs H.
  - injection H as <-. split; [reflexivity|]. intros i j' Hi. discriminate.
  - cbn [decode_all] in H. destruct (decode x) as [e|v] eqn:Hx; [discriminate|].
    fold (decode_all decode items) in H.
    destruct (decode_all decode items) as [e|vs'] eqn:Hd; [discriminate|].
    injection H as <-. destruct (IH vs' eq_refl) as [Hlen Hi].
    split; [simpl; f_equal; exact Hlen|].
    intros [|i] j' Hj; simpl in *.
    + injection Hj as <-. eauto.
    + apply Hi. exact Hj.
Qed.

(** X16.  An object that decodes gives a [BanData] whose every field holds
    the decoded value of the member named like the field, the last one if
    the name is repeated, and the declared default if there is none.  The
    value is taken as it is: an integer given for [type] or
    [sourceRoleplayLevel] stays an integer and is not turned into a member
    of the enumeration. *)
Theorem decode_object_fields members v :
  from_json_string (JObject members) = inr v ->
  exists ban,
    v = VBanData ban
    /\ (forall f,
          match dict_get (field_name f) members with
          | Some j' => decode j' = inr (ban f)
          | None => ban f = default f
          end)
    /\ (forall n, dict_get "type" members = Some (JInt n) -> ban f_type = VInt n)
    /\ (forall n, dict_get "sourceRoleplayLevel" members = Some (JInt n) ->
          ban f_sourceRoleplayLevel = VInt n).
Proof.
  unfold from_json_string. rewrite decode_object.
  destruct (decode_all decode_member members) as [e|d] eqn:Hd; [discriminate|].
  rewrite BanData_keys. destruct (forallb is_field (map fst d)); [|discriminate].
  intros H. injection H as <-. eexists. split; [reflexivity|].
  assert (Hf : forall f,
             match dict_get (field_name f) members with
             | Some j' => decode j' = inr (match dict_get (field_name f) d with
                                           | Some v => v
                                           | None => default f
                                           end)
             | None => match dict_get (field_name f) d with
                       | Some v => v
                       | None => default f
                       end = default f
             end).
  { intros f. pose proof (decode_all_dict members d (field_name f) Hd) as H.
    destruct (dict_get (field_name f) members) as [j'|].
    - destruct H as (v & Hv & ->). exact Hv.
    - rewrite H. reflexivity. }
  split; [exact Hf|]. split; intros n Hn.
  - specialize (Hf f_type). cbn [field_name] in Hf. rewrite Hn in Hf.
    cbn [decode] in Hf. injection Hf as Hf. cbn beta. cbn [field_name].
    symmetry. exact Hf.
  - specialize (Hf f_sourceRoleplayLevel). cbn [field_name] in Hf. rewrite Hn in Hf.
    cbn [decode] in Hf. injection Hf as Hf. cbn beta. cbn [field_name].
    symmetry. exact Hf.
Qed.

(** X17.  An array that decodes gives a list with one value per element,
    in the order of the document, each the decoding of its element. *)
Theorem decode_array_elements items v :
  from_json_string (JArray items) = inr v ->
  exists vs,
    v = VList vs
    /\ length vs = length items
    /\ forall i j', items !! i = Some j' ->
         exists x, vs !! i = Some x /\ from_json_string j' = inr x.
Proof.
  unfold from_json_string. rewrite decode_array.
  destruct (decode_all decode items) as [e|vs] eqn:Hd; [discriminate|].
  intros H. injection H as <-. exists vs. split; [reflexivity|].
  apply decode_all_lookup. exact Hd.
Qed.

End CentComFacts.

(** ** The claims on the examples *)

Section Examples.

Import Demo.

Local Abbreviation box_lines := (Some ["Foo happened"; "Bar happened"]).

(** Two rounds; the response for the second arrives before the response for
    the first.  The outcomes come in the order of submission.  Three
    rounds of which the second cannot be parsed: its task raises
    [ValueError], which leaves the generator after the outcome of the
    first.  And an archive that cannot be reached: the task of the only
    round raises the exception of the HTTP client. *)
Lemma get_logs_async_submission_order_witness :
  (map fst (outcomes (get_logs web_both [0; 1; 1; 0]%nat heap0 [0; 1]%nat)) = [0; 1]%nat
   /\ length (outcomes (get_logs web_both [0; 1; 1; 0]%nat heap0 [0; 1]%nat)) = 2%nat)
  /\ (ending (get_logs web_both [0; 1; 2; 0]%nat heap0 [0; 2; 1]%nat) = Failed ValueError
      /\ length (outcomes (get_logs web_both [0; 1; 2; 0]%nat heap0 [0; 2; 1]%nat)) = 1%nat
      /\ map fst (outcomes (get_logs web_both [0; 1; 2; 0]%nat heap0 [0; 2; 1]%nat))
         = take 1 [0; 2; 1]%nat)
  /\ fetch_tasks (env := env web_down) (downloader [0]%nat) [0; 0]%nat heap0 [0]%nat
       !! 0%nat
     = Some (Finished (Raised ClientError)).
Proof.
  split; [|split].
  - apply (get_logs_async_submission_order (env := env web_both)
             (downloader [0; 1]%nat) [0; 1; 1; 0]%nat heap0 [0; 1]%nat).
    vm_compute. reflexivity.
  - apply (get_logs_async_submission_order (env := env web_both)
             (downloader [0; 2; 1]%nat) [0; 1; 2; 0]%nat heap0 [0; 2; 1]%nat).
    + vm_compute. reflexivity.
    + intros i Hi. assert (i = 0%nat) as -> by lia.
      vm_compute. eexists _, _. reflexivity.
  - apply (get_logs_async_submission_order (env := env web_down)
             (downloader [0]%nat) [0; 0]%nat heap0 [0]%nat) with (earlier := [])
                                                                 (link := url_box42).
    + simpl. lia.
    + vm_compute. reflexivity.
    + reflexivity.
Defined.

(** C1, as stated, fails: the archive cannot be reached, the task of the
    only round raises, and the generator yields nothing for it. *)
Lemma get_logs_async_network_failure :
  outcomes (get_logs web_down [0; 0]%nat heap0 [0]%nat) = []
  /\ ending (get_logs web_down [0; 0]%nat heap0 [0]%nat) = Failed ClientError
  /\ length (outcomes (get_logs web_down [0; 0]%nat heap0 [0]%nat))
     <> length [0%nat].
Proof. vm_compute. repeat split; discriminate. Qed.

(** C2 on the code: the only candidate URL of the only round answers 404.
    [fetch] leaves its loop without a [return], the coordinator cannot
    unpack [None], and [TypeError] reaches the consumer instead of the
    outcome [(round, None)]. *)
Theorem fetch_not_found_raises :
  web_none url_box42 = Status false "Not Found"
  /\ requests (get_logs web_none [0; 0]%nat heap0 [0]%nat) = [(0%nat, url_box42)]
  /\ outcomes (get_logs web_none [0; 0]%nat heap0 [0]%nat) = []
  /\ ending (get_logs web_none [0; 0]%nat heap0 [0]%nat) = Failed TypeError.
Proof. vm_compute. repeat split; reflexivity. Qed.

(** C3 on the code: both rounds have their log in the archive.  The task of
    the second round requests the URL of the first round, takes its body,
    and never asks for its own URL. *)
Theorem fetch_consults_first_round :
  web_both url_basil7 = Status true "Baz happened"
  /\ requests_of 1 (requests (get_logs web_both [0; 1; 0; 1]%nat heap0 [0; 1]%nat))
     = [url_box42]
  /\ outcomes (get_logs web_both [0; 1; 0; 1]%nat heap0 [0; 1]%nat)
     = [(0%nat, box_lines); (1%nat, box_lines)].
Proof. vm_compute. repeat split; reflexivity. Qed.

(** C4 on the code: the first run writes the two lines of the round; the
    second run, on the same downloader, the same rounds and the same
    archive, raises [TypeError] and leaves an empty file. *)
Theorem second_run_raises :
  run_ending (pipeline web_both (downloader [0]%nat) [0; 0]%nat heap0) = Completed
  /\ file (run_sink (pipeline web_both (downloader [0]%nat) [0; 0]%nat heap0))
     = "Box 42 | Foo happened" +:+ NL +:+ "Box 42 | Bar happened" +:+ NL
  /\ run_ending
       (pipeline web_both
          (run_self (pipeline web_both (downloader [0]%nat) [0; 0]%nat heap0))
          [0; 0]%nat
          (run_heap (pipeline web_both (downloader [0]%nat) [0; 0]%nat heap0)))
     = Failed TypeError
  /\ file (run_sink
       (pipeline web_both
          (run_self (pipeline web_both (downloader [0]%nat) [0; 0]%nat heap0))
          [0; 0]%nat
          (run_heap (pipeline web_both (downloader [0]%nat) [0; 0]%nat heap0))))
     = EmptyString.
Proof. vm_compute. repeat split; reflexivity. Qed.

(** C5, as stated, fails: the second of three rounds has the timestamp
    [yesterday].  The first round is yielded, then [ValueError] leaves the
    generator: no absent outcome for the second round, nothing for the
    third. *)
Lemma unparseable_timestamp_stops_the_run :
  outcomes (get_logs web_both [0; 1; 2; 0]%nat heap0 [0; 2; 1]%nat) = [(0%nat, box_lines)]
  /\ ending (get_logs web_both [0; 1; 2; 0]%nat heap0 [0; 2; 1]%nat) = Failed ValueError
  /\ ~ In (2%nat, None) (outcomes (get_logs web_both [0; 1; 2; 0]%nat heap0 [0; 2; 1]%nat))
  /\ ~ In 1%nat (map fst (outcomes (get_logs web_both [0; 1; 2; 0]%nat heap0 [0; 2; 1]%nat))).
Proof.
  vm_compute. repeat split; try reflexivity.
  - intros [H|[]]. discriminate.
  - intros [H|[]]. discriminate.
Qed.

Lemma get_logs_async_unparseable_witness :
  fetch_tasks (env := env web_both) (downloader [0; 2; 1]%nat)
    [0; 1; 2; 0]%nat heap0 [0; 2; 1]%nat !! 1%nat
  = Some (Finished (Raised ValueError))
  /\ (length (outcomes (get_logs web_both [0; 1; 2; 0]%nat heap0 [0; 2; 1]%nat)) <= 1)%nat
  /\ map fst (outcomes (get_logs web_both [0; 1; 2; 0]%nat heap0 [0; 2; 1]%nat))
     = take (length (outcomes (get_logs web_both [0; 1; 2; 0]%nat heap0 [0; 2; 1]%nat)))
         [0; 2; 1]%nat
  /\ ending (get_logs web_both [0; 1; 2; 0]%nat heap0 [0; 2; 1]%nat) = Failed ValueError.
Proof.
  destruct (get_logs_async_unparseable (env := env web_both) (sub := keeper)
              (downloader [0; 2; 1]%nat) [0; 1; 2; 0]%nat heap0 [0; 2; 1]%nat
              1%nat 2%nat "yesterday")
    as (Htask & Hle & Hpre & _ & Hend & _ & _); [reflexivity..|].
  split; [exact Htask|]. split; [exact Hle|]. split; [exact Hpre|].
  apply Hend. vm_compute. reflexivity.
Defined.




(** C10 on the code: an empty body gives the outcome [(round, None)] and
    the generator goes on to its end, as the claim says; but a round for
    which no candidate succeeds, which the claim and the docstring of
    [get_logs_async] give the same outcome, gives no outcome at all and
    [TypeError], by the early end of [fetch] reported under C2. *)
Theorem empty_body_unlike_not_found :
  outcomes (get_logs web_empty_body [0; 0]%nat heap0 [0]%nat) = [(0%nat, None)]
  /\ ending (get_logs web_empty_body [0; 0]%nat heap0 [0]%nat) = Completed
  /\ outcomes (get_logs web_none [0; 0]%nat heap0 [0]%nat) = []
  /\ ending (get_logs web_none [0; 0]%nat heap0 [0]%nat) = Failed TypeError.
Proof. vm_compute. repeat split; reflexivity. Qed.

Lemma get_logs_async_empty_body_witness :
  outcomes (get_logs web_empty_body [0; 0]%nat heap0 [0]%nat) !! 0%nat = Some (0%nat, None).
Proof.
  apply (proj1 (get_logs_async_empty_body (env := env web_empty_body)
                  (downloader [0]%nat) [0; 0]%nat heap0 [0]%nat)
           0%nat 0%nat [] url_box42).
  - reflexivity.
  - vm_compute. reflexivity.
  - vm_compute. reflexivity.
  - vm_compute. lia.
Defined.

End Examples.

(** ** The further properties on the examples *)

Section MoreExamples.

Import Demo.

Lemma get_logs_async_only_normalises_witness :
  heap_after (get_logs web_both [0; 0]%nat heap0 [0]%nat) 1%nat = heap0 1%nat.
Proof.
  apply (get_logs_async_only_normalises (env := env web_both)
           (downloader [0]%nat) [0; 0]%nat heap0 [0]%nat 1%nat).
  rewrite list_elem_of_singleton. discriminate.
Defined.

Lemma completed_run_parsed_every_round_witness :
  exists s d,
    timestamp (heap0 0%nat) = TsText s /\ iso_calendar_date s = Some d
    /\ timestamp (heap_after (get_logs web_both [0; 0]%nat heap0 [0]%nat) 0%nat)
       = TsInstant d.
Proof.
  apply (completed_run_parsed_every_round (env := env web_both)
           (downloader [0]%nat) [0; 0]%nat heap0 [0]%nat 0%nat).
  - vm_compute. reflexivity.
  - apply list_elem_of_singleton. reflexivity.
Defined.

Lemma fetch_requests_bounded_witness :
  (length (requests_of 1 (requests (get_logs web_none [0; 1; 0; 1; 0; 1]%nat heap0
                                      [0; 1]%nat))) <= 2)%nat
  /\ NoDup (requests_of 1 (requests (get_logs web_none [0; 1; 0; 1; 0; 1]%nat heap0
                                       [0; 1]%nat))).
Proof.
  destruct (fetch_requests_bounded (env := env web_none)
              (downloader [0; 1]%nat) [0; 1; 0; 1; 0; 1]%nat heap0 [0; 1]%nat 1%nat)
    as (Hle & _ & Hnd).
  split; [exact Hle|]. apply Hnd.
  assert (Hcase : forall k b, rounds (downloader [0; 1]%nat) !! k = Some b ->
                    (k = 0 /\ b = 0)%nat \/ (k = 1 /\ b = 1)%nat).
  { intros [|[|n]] c H; simpl in H.
    - left. injection H as <-. split; reflexivity.
    - right. injection H as <-. split; reflexivity.
    - rewrite lookup_nil in H. discriminate H. }
  intros k k' b b' link Hb Hb' Hl Hl'.
  destruct (Hcase k b Hb) as [[-> ->]|[-> ->]];
    destruct (Hcase k' b' Hb') as [[-> ->]|[-> ->]]; try reflexivity;
    vm_compute in Hl, Hl'; rewrite <- Hl in Hl'; discriminate Hl'.
Defined.

Lemma outcomes_share_their_logs_witness :
  snd <$> outcomes (get_logs web_both [0; 1; 1; 0]%nat heap0 [0; 1]%nat) !! 0%nat
  = snd <$> outcomes (get_logs web_both [0; 1; 1; 0]%nat heap0 [0; 1]%nat) !! 1%nat.
Proof.
  destruct (outcomes (get_logs web_both [0; 1; 1; 0]%nat heap0 [0; 1]%nat) !! 0%nat)
    as [[a logs_a]|] eqn:H0; [|vm_compute in H0; discriminate].
  destruct (outcomes (get_logs web_both [0; 1; 1; 0]%nat heap0 [0; 1]%nat) !! 1%nat)
    as [[b logs_b]|] eqn:H1; [|vm_compute in H1; discriminate].
  simpl. f_equal.
  exact (outcomes_share_their_logs (env := env web_both) (downloader [0; 1]%nat)
           [0; 1; 1; 0]%nat heap0 [0; 1]%nat 0%nat 1%nat a b logs_a logs_b H0 H1).
Defined.

Lemma outcome_lines_rebuild_body_witness :
  (exists earlier link,
      requests_of 0 (requests (get_logs web_both [0; 0]%nat heap0 [0]%nat))
      = (earlier ++ [link])%list
      /\ web_both link = Status true (join CRLF ["Foo happened"; "Bar happened"]))
  /\ Forall (fun line => contains CRLF line = false) ["Foo happened"; "Bar happened"].
Proof.
  apply (outcome_lines_rebuild_body (env := env web_both) (downloader [0]%nat)
           [0; 0]%nat heap0 [0]%nat 0%nat 0%nat ["Foo happened"; "Bar happened"]).
  vm_compute. reflexivity.
Defined.

Lemma process_and_write_output_witness :
  (file (run_sink (process_and_write (env := env web_both) (sub := keeper)
                     (downloader [0; 1]%nat) [0; 1]%nat heap0 (Some "missing/logs.log")))
   = EmptyString)
  /\ file (run_sink (pipeline web_both (downloader [0; 1]%nat) [0; 1; 0; 1]%nat heap0))
  = String.concat EmptyString
      (flat_map (written_lines (sub := keeper) heap0)
         (outcomes (get_logs web_both [0; 1; 0; 1]%nat heap0 [0; 1]%nat)))
  /\ printed (run_sink (pipeline web_both (downloader [0; 1]%nat) [0; 1; 0; 1]%nat heap0))
     = flat_map (messages heap0)
         (outcomes (get_logs web_both [0; 1; 0; 1]%nat heap0 [0; 1]%nat)).
Proof.
  split.
  - apply (process_and_write_output (env := env web_both) (sub := keeper)
             (downloader [0; 1]%nat) [0; 1]%nat heap0 (Some "missing/logs.log")).
    discriminate.
  - apply (process_and_write_output (env := env web_both) (sub := keeper)
             (downloader [0; 1]%nat) [0; 1; 0; 1]%nat heap0 None).
    discriminate.
Defined.

Lemma log_link_arguments_witness :
  exists args,
    log_link (env := env web_none) EmptyString (heap1 1%nat) = inr (plain_url args)
    /\ lower (arg_server args) = arg_server args
    /\ contains "bagil" (arg_server args) = false
    /\ String.length (arg_month args) = 2%nat
    /\ String.length (arg_day args) = 2%nat
    /\ arg_round_id args = 7.
Proof.
  apply (log_link_arguments (env := env web_none) EmptyString (heap1 1%nat)
           {| year := 2023; month := 2; day := 3 |}).
  - reflexivity.
  - simpl. lia.
  - simpl. lia.
Defined.

Lemma get_logs_async_in_creation_order_witness :
  (outcomes (get_logs web_both [0; 1; 1; 0]%nat heap0 [0; 1]%nat),
   ending (get_logs web_both [0; 1; 1; 0]%nat heap0 [0; 1]%nat))
  = ([(0%nat, Some ["Foo happened"; "Bar happened"]);
      (1%nat, Some ["Foo happened"; "Bar happened"])], Completed).
Proof.
  destruct (get_logs_async_in_creation_order (env := env web_both)
              (downloader [0; 1]%nat) [1; 0]%nat heap0 [url_box42; url_basil7])
    as [H _].
  - discriminate.
  - apply NoDup_cons. split; [|apply NoDup_singleton].
    rewrite list_elem_of_singleton. discriminate.
  - vm_compute. reflexivity.
  - vm_compute. reflexivity.
  - etransitivity; [exact H|]. vm_compute. reflexivity.
Defined.


Lemma authenticate_interactive_answer_witness :
  authenticate_interactive unit (fun w => (w, Some true)) "YES" tt
  = authenticate_interactive unit (fun w => (w, Some true)) "yes" tt
  /\ authenticate_interactive unit (fun w => (w, Some true)) "yeah" tt = (tt, Some false).
Proof.
  destruct (authenticate_interactive_answer unit (fun w => (w, Some true)) "YES" "yes" tt)
    as (H1 & _).
  destruct (authenticate_interactive_answer unit (fun w => (w, Some true)) "yeah" "yeah" tt)
    as (_ & _ & H3 & _).
  split; [apply H1; reflexivity|apply H3].
  simpl. intros [H|[H|[H|[H|[]]]]]; discriminate.
Defined.

Lemma decode_object_fields_witness :
  exists ban,
    CentCom.decode (CentCom.JObject [("id", CentCom.JInt 5); ("type", CentCom.JInt 1)])
    = inr (CentCom.VBanData ban)
    /\ ban CentCom.f_type = CentCom.VInt 1
    /\ ban CentCom.f_bannedOn = CentCom.VStr "ERROR".
Proof.
  destruct (CentComFacts.decode_object_fields
              [("id", CentCom.JInt 5); ("type", CentCom.JInt 1)]
              (CentCom.VBanData
                 (fun f => match CentCom.dict_get (CentCom.field_name f)
                                   [("id", CentCom.VInt 5); ("type", CentCom.VInt 1)] with
                           | Some v => v
                           | None => CentCom.default f
                           end)))
    as (ban & Hv & Hf & Ht & _); [reflexivity|].
  exists ban. split; [rewrite <- Hv; reflexivity|].
  split; [apply Ht; reflexivity|].
  exact (Hf CentCom.f_bannedOn).
Defined.

Lemma decode_array_elements_witness :
  exists vs,
    CentCom.decode (CentCom.JArray [CentCom.JObject []; CentCom.JNull]) = inr (CentCom.VList vs)
    /\ length vs = 2%nat.
Proof.
  destruct (CentComFacts.decode_array_elements
              [CentCom.JObject []; CentCom.JNull]
              (CentCom.VList [CentCom.VBanData CentCom.default; CentCom.VNone]))
    as (vs & Hv & Hlen & _); [reflexivity|].
  exists vs. split; [rewrite <- Hv; reflexivity|exact Hlen].
Defined.

Lemma process_and_write_in_creation_order_witness :
  run_ending (pipeline web_both (downloader [0; 1]%nat) [0; 1; 1; 0]%nat heap0) = Completed
  /\ file (run_sink (pipeline web_both (downloader [0; 1]%nat) [0; 1; 1; 0]%nat heap0))
     = "Box 42 | Foo happened" +:+ NL +:+ "Box 42 | Bar happened" +:+ NL
       +:+ "Bagil 7 | Foo happened" +:+ NL +:+ "Bagil 7 | Bar happened" +:+ NL.
Proof.
  destruct (process_and_write_in_creation_order (env := env web_both) (sub := keeper)
              (downloader [0; 1]%nat) [1; 0]%nat heap0 None [url_box42; url_basil7]
              ("Foo happened" +:+ CRLF +:+ "Bar happened"))
    as (He & Hf & _).
  - discriminate.
  - reflexivity.
  - apply NoDup_cons. split; [|apply NoDup_singleton].
    rewrite list_elem_of_singleton. discriminate.
  - vm_compute. reflexivity.
  - vm_compute. reflexivity.
  - vm_compute. reflexivity.
  - vm_compute. discriminate.
  - split; [exact He|]. etransitivity; [exact Hf|]. vm_compute. reflexivity.
Defined.

Lemma written_file_ends_with_newline_witness :
  file (run_sink (pipeline web_both (downloader [0; 2; 1]%nat) [0; 1; 2; 0]%nat heap0))
  = EmptyString
  \/ exists pre,
       file (run_sink (pipeline web_both (downloader [0; 2; 1]%nat) [0; 1; 2; 0]%nat heap0))
       = pre +:+ NL.
Proof.
  apply (written_file_ends_with_newline (env := env web_both) (sub := keeper)
           (downloader [0; 2; 1]%nat) [0; 1; 2; 0]%nat heap0 None).
  discriminate.
Defined.

Lemma decode_fails_on_foreign_key_witness :
  exists e,
    CentCom.from_json_string
      (CentCom.JArray [CentCom.JObject [("id", CentCom.JInt 5);
                                        ("ckey", CentCom.JString "someone")]])
    = inl e.
Proof.
  apply (CentComFacts.decode_fails_on_foreign_key
           (CentCom.JArray [CentCom.JObject [("id", CentCom.JInt 5);
                                             ("ckey", CentCom.JString "someone")]])).
  reflexivity.
Defined.

End MoreExamples.
